(** * Nest Cam Viewer: credential broker and HLS slot orchestrator

    A shallow embedding of the Node.js server of the repository (the HLS
    relay server and its token-only predecessor [server.js]) together with
    the properties of its token store and of its table of relay processes.

    Conventions of the embedding.
    - The module-level variables of the server ([tokens], [hlsStreams]) and
      the part of the outside world the server acts on (child processes,
      staging directories, issued HTTPS requests, the console, the wall
      clock) are the fields of one record [State].
    - Synchronous functions ([startHls], [stopHls], the exit observer) are
      functions on [State].  [async] functions are computations in a
      resumption monad [Async]: they run on the state until they either
      finish or block on an HTTPS request, and are resumed, on the state of
      that later moment, with the outcome of the request.
    - An object handle ([ffmpeg]) is its index in the list of children ever
      spawned; [===] on handles is equality of indices.
    - The object [hlsStreams] is used as a dictionary.  Its own properties
      are a [gmap] from the property key to the entry, and the functions on
      [State] are the server on slot ids that are ordinary keys.  What a
      plain object adds to a dictionary (the key [__proto__], which reads
      and replaces the prototype, and the names inherited from
      [Object.prototype]) is the record [Server] with [readSlot],
      [writeSlot] and [deleteSlot], and the functions on [Server] are the
      server on every slot id.
    - A directory is its path, and [fs] gives the entries of the staging
      directories by path; the listing of a parent directory is not kept.
      [path_join] is [path.join] on a normalised directory and one plain
      segment, where it is concatenation; [posix_join] is [path.join] on
      every pair of strings, and [posix_join_exact] relates the two.
    - JSON bodies are records of optional fields: a field that is missing
      (or a body that is text and no JSON object) is [None]; a body that
      is the JSON value [null] is not modelled.  Tokens and URLs are
      strings; timestamps are integers of milliseconds, and a [number] is
      an integer or [NaN].
    - [spawn] and [kill] are taken to succeed; the [stderr] observer of a
      child, which only writes to the console, is left out. *)

From Stdlib Require Import ZArith String List Lia.
From stdpp Require Import base gmap strings list.

Local Open Scope string_scope.

(** ** JavaScript values used by the server *)

Inductive number : Type :=
| Num (z : Z)
| NaN.

Definition num_add (a b : number) : number :=
  match a, b with
  | Num x, Num y => Num (x + y)
  | _, _ => NaN
  end.

Definition num_sub (a b : number) : number :=
  match a, b with
  | Num x, Num y => Num (x - y)
  | _, _ => NaN
  end.

Definition num_mul (a b : number) : number :=
  match a, b with
  | Num x, Num y => Num (x * y)
  | _, _ => NaN
  end.

(** [a > b]: every comparison with [NaN] is false. *)
Definition num_gt (a b : number) : bool :=
  match a, b with
  | Num x, Num y => (y <? x)%Z
  | _, _ => false
  end.

(** [v * 1000] reads [v] as a number. [None] is a field that is missing,
    [undefined]: [undefined * 1000] is [NaN]. A field that is present is
    an integer; the JSON values [null] (which would count as 0) and the
    non-numeric ones are not values of [body_expires_in]. *)
Definition toNumber (v : option Z) : number :=
  match v with
  | Some z => Num z
  | None => NaN
  end.

(** Truthiness of a value that is a string, [null] or [undefined]: only a
    non-empty string is truthy. *)
Definition truthy (v : option string) : bool :=
  match v with
  | Some s => negb (String.eqb s "")
  | None => false
  end.

(** How [null] prints inside a template literal. *)
Definition show (v : option string) : string :=
  match v with
  | Some s => s
  | None => "null"
  end.

(** ** Configuration and token store *)

Record Config : Type := {
  clientId : option string;
  clientSecret : option string;
  projectId : option string;
  redirectUri : option string
}.

Record Tokens : Type := {
  access_token : option string;
  refresh_token : option string;
  expiry : number
}.

(** [initTokens]: the store is bootstrapped from the [REFRESH_TOKEN]
    environment variable when it is set (and not empty). *)
Definition initTokens (REFRESH_TOKEN : option string) : option Tokens :=
  if truthy REFRESH_TOKEN
  then Some {| access_token := None; refresh_token := REFRESH_TOKEN; expiry := Num 0 |}
  else None.

(** ** HTTPS requests and responses *)

Inductive Payload : Type :=
| RefreshForm (client_id client_secret refresh : option string)
| GenerateRtspStream
| ExtendRtspStream (streamExtensionToken : option string).

Record Request : Type := {
  hostname : string;
  path : string;
  method : string;
  authorization : option string;
  payload : Payload
}.

Record StreamUrls : Type := {
  rtspUrl : option string
}.

Record Results : Type := {
  streamUrls : option StreamUrls;
  streamExtensionToken : option string;
  expiresAt : option string
}.

Record Body : Type := {
  body_access_token : option string;
  body_expires_in : option Z;
  body_refresh_token : option string;
  body_results : option Results
}.

Record Response : Type := {
  status : Z;
  body : Body
}.

(** The promise of [httpsRequest] resolves with the response, whatever its
    status, and rejects on the request's ['error'] event. *)
Inductive Outcome : Type :=
| Resolved (res : Response)
| Rejected.

(** ** Relay processes, slots and staging directories *)

(** A child process as the operating system and the server see it: the
    slot id its exit observer closes over, its command line, whether
    [kill('SIGKILL')] was called on its handle, and whether it has exited. *)
Record Child : Type := {
  child_slot : string;
  child_args : list string;
  child_killed : bool;
  child_exited : bool
}.

Record Slot : Type := {
  process : nat;
  dir : string;
  slot_rtspUrl : string;
  startedAt : Z
}.

Inductive Kind : Type :=
| RegularFile
| Directory.

Inductive LogLine : Type :=
| LogStarting (slotId : string)
| LogStopped (slotId : string)
| LogExited (slotId : string) (code : option Z).

Record State : Type := {
  config : Config;
  tmpdir : string;
  tokens : option Tokens;
  hlsStreams : gmap string Slot;
  children : list Child;
  fs : gmap string (gmap string Kind);
  sent : list Request;
  console : list LogLine;
  clock : Z
}.

Definition set_tokens (t : option Tokens) (s : State) : State :=
  {| config := config s; tmpdir := tmpdir s; tokens := t;
     hlsStreams := hlsStreams s; children := children s; fs := fs s;
     sent := sent s; console := console s; clock := clock s |}.

Definition set_hlsStreams (h : gmap string Slot) (s : State) : State :=
  {| config := config s; tmpdir := tmpdir s; tokens := tokens s;
     hlsStreams := h; children := children s; fs := fs s;
     sent := sent s; console := console s; clock := clock s |}.

Definition set_children (c : list Child) (s : State) : State :=
  {| config := config s; tmpdir := tmpdir s; tokens := tokens s;
     hlsStreams := hlsStreams s; children := c; fs := fs s;
     sent := sent s; console := console s; clock := clock s |}.

Definition set_fs (f : gmap string (gmap string Kind)) (s : State) : State :=
  {| config := config s; tmpdir := tmpdir s; tokens := tokens s;
     hlsStreams := hlsStreams s; children := children s; fs := f;
     sent := sent s; console := console s; clock := clock s |}.

Definition set_sent (r : list Request) (s : State) : State :=
  {| config := config s; tmpdir := tmpdir s; tokens := tokens s;
     hlsStreams := hlsStreams s; children := children s; fs := fs s;
     sent := r; console := console s; clock := clock s |}.

Definition set_console (c : list LogLine) (s : State) : State :=
  {| config := config s; tmpdir := tmpdir s; tokens := tokens s;
     hlsStreams := hlsStreams s; children := children s; fs := fs s;
     sent := sent s; console := c; clock := clock s |}.

Definition set_clock (t : Z) (s : State) : State :=
  {| config := config s; tmpdir := tmpdir s; tokens := tokens s;
     hlsStreams := hlsStreams s; children := children s; fs := fs s;
     sent := sent s; console := console s; clock := t |}.

Definition log (l : LogLine) (s : State) : State :=
  set_console (console s ++ [l]) s.

(** ** The resumption monad of [async] functions *)

Inductive Error : Type :=
| NotAuthenticated
| TokenRefreshFailed (b : Body)
| NoRtspUrl
| RequestError
| SyntaxError
| TypeError.

(** A computation started on a state has either finished, with the state
    it leaves and its value or the error it threw, or it has issued an
    HTTPS request and waits: [k outcome s'] continues it with the outcome
    on the state [s'] of the moment it is resumed. *)
Inductive Step (A : Type) : Type :=
| Done (s : State) (r : Error + A)
| Blocked (s : State) (req : Request) (k : Outcome -> State -> Step A).

Arguments Done {A} s r.
Arguments Blocked {A} s req k.

Definition Async (A : Type) : Type := State -> Step A.

Definition ret {A} (a : A) : Async A := fun s => Done s (inr a).

Definition throw {A} (e : Error) : Async A := fun s => Done s (inl e).

Fixpoint bindStep {A B} (x : Step A) (f : A -> Async B) : Step B :=
  match x with
  | Done s (inr a) => f a s
  | Done s (inl e) => Done s (inl e)
  | Blocked s req k => Blocked s req (fun o s' => bindStep (k o s') f)
  end.

Definition bind {A B} (m : Async A) (f : A -> Async B) : Async B :=
  fun s => bindStep (m s) f.

Fixpoint catchStep {A} (x : Step A) (h : Error -> Async A) : Step A :=
  match x with
  | Done s (inr a) => Done s (inr a)
  | Done s (inl e) => h e s
  | Blocked s req k => Blocked s req (fun o s' => catchStep (k o s') h)
  end.

(** [try { m } catch (e) { h e }] *)
Definition tryCatch {A} (m : Async A) (h : Error -> Async A) : Async A :=
  fun s => catchStep (m s) h.

Definition gets {A} (f : State -> A) : Async A := fun s => Done s (inr (f s)).

Definition modify (f : State -> State) : Async unit := fun s => Done (f s) (inr tt).

Notation "'let*' x ':=' m 'in' k" := (bind m (fun x => k))
  (at level 10, x name, m at level 100, k at level 200).

(** [httpsRequest]: the request is written and ended before the promise
    is returned; the caller is resumed when the response has ended. *)
Definition httpsRequest (req : Request) : Async Response :=
  fun s =>
    Blocked (set_sent (sent s ++ [req]) s) req
      (fun o s' =>
         match o with
         | Resolved res => Done s' (inr res)
         | Rejected => Done s' (inl RequestError)
         end).

(** ** Credential broker *)

Definition tokenRequest (c : Config) (refresh : option string) : Request :=
  {| hostname := "oauth2.googleapis.com";
     path := "/token";
     method := "POST";
     authorization := None;
     payload := RefreshForm (clientId c) (clientSecret c) refresh |}.

(** [{ ...tokens, access_token: a, expiry: e }]: the other property of the
    current store, [refresh_token], is carried over (spreading [null]
    gives no property). *)
Definition spread_tokens (cur : option Tokens) (a : option string) (e : number) : Tokens :=
  {| access_token := a;
     refresh_token := match cur with Some t => refresh_token t | None => None end;
     expiry := e |}.

Definition refreshAccessToken : Async unit :=
  let* t := gets tokens in
  match t with
  | None => throw TypeError
  | Some t =>
      let* c := gets config in
      let* res := httpsRequest (tokenRequest c (refresh_token t)) in
      if truthy (body_access_token (body res)) then
        modify (fun s =>
          set_tokens
            (Some (spread_tokens (tokens s) (body_access_token (body res))
                     (num_add (Num (clock s))
                        (num_mul (toNumber (body_expires_in (body res))) (Num 1000)))))
            s)
      else throw (TokenRefreshFailed (body res))
  end.

(** [!tokens.access_token || Date.now() > (tokens.expiry - 60000)] *)
Definition needsRefresh (t : Tokens) (now : Z) : bool :=
  negb (truthy (access_token t)) || num_gt (Num now) (num_sub (expiry t) (Num 60000)).

Definition getValidToken : Async (option string) :=
  let* t := gets tokens in
  match t with
  | None => throw NotAuthenticated
  | Some t =>
      let* now := gets clock in
      let* _ := (if needsRefresh t now then refreshAccessToken else ret tt) in
      let* t' := gets tokens in
      match t' with
      | None => throw TypeError
      | Some t' => ret (access_token t')
      end
  end.

(** ** HLS stream manager *)

(** [path.join(a, b)] where [a] is a normalised directory and [b] one
    plain segment: there [path.join] only concatenates. For the other
    arguments see [posix_join]. *)
Definition path_join (a b : string) : string := a ++ "/" ++ b.

Definition getHlsDir (slotId : string) (s : State) : string :=
  path_join (tmpdir s) ("hls_" ++ slotId).

Definition existsSync (d : string) (s : State) : bool :=
  bool_decide (is_Some (fs s !! d)).

(** [fs.mkdirSync(d, { recursive: true })] where [d] does not exist: [d]
    is there afterwards, empty. The parents it may create on the way, and
    the new entry in the listing of the parent, are not kept. *)
Definition mkdirSync (d : string) (s : State) : State :=
  set_fs (<[d := ∅]> (fs s)) s.

(** [fs.readdirSync(dir)] of a directory with the given entries, in the
    order of the map; the file system may list them in any other. *)
Definition readdir (entries : gmap string Kind) : list string :=
  (map_to_list entries).*1.

(** [names.forEach(f => fs.unlinkSync(path.join(dir, f)))]: [unlinkSync]
    removes a regular file and throws on anything else, which abandons
    the loop. *)
Fixpoint unlinkEach (names : list string) (entries : gmap string Kind) : gmap string Kind :=
  match names with
  | [] => entries
  | f :: rest =>
      match entries !! f with
      | Some RegularFile => unlinkEach rest (delete f entries)
      | _ => entries
      end
  end.

(** [try { fs.readdirSync(dir).forEach(...) } catch {}] *)
Definition clearDir (d : string) (s : State) : State :=
  match fs s !! d with
  | Some entries => set_fs (<[d := unlinkEach (readdir entries) entries]> (fs s)) s
  | None => s
  end.

Definition ffmpegArgs (d rtspUrl : string) : list string :=
  [ "-rtsp_transport"; "tcp";
    "-i"; rtspUrl;
    "-c:v"; "copy";
    "-an";
    "-f"; "hls";
    "-hls_time"; "2";
    "-hls_list_size"; "5";
    "-hls_flags"; "delete_segments+append_list";
    "-hls_segment_filename"; path_join d "seg%03d.ts";
    path_join d "index.m3u8" ].

Definition newChild (slotId : string) (args : list string) : Child :=
  {| child_slot := slotId; child_args := args;
     child_killed := false; child_exited := false |}.

(** [spawn('ffmpeg', args)]: the new child is appended; its handle is its
    index. The exit observer registered on it closes over [slotId]. *)
Definition spawn (slotId : string) (args : list string) (s : State) : State :=
  set_children (children s ++ [newChild slotId args]) s.

Definition markKilled (c : Child) : Child :=
  {| child_slot := child_slot c; child_args := child_args c;
     child_killed := true; child_exited := child_exited c |}.

Definition markExited (c : Child) : Child :=
  {| child_slot := child_slot c; child_args := child_args c;
     child_killed := child_killed c; child_exited := true |}.

(** [process.kill('SIGKILL')] on the handle [p]. *)
Definition kill (p : nat) (s : State) : State :=
  set_children (alter markKilled p (children s)) s.

Definition stopHls (slotId : string) (s : State) : State :=
  match hlsStreams s !! slotId with
  | Some e =>
      log (LogStopped slotId)
        (set_hlsStreams (delete slotId (hlsStreams s)) (kill (process e) s))
  | None => s
  end.

Definition startHls (slotId rtspUrl : string) (s : State) : State :=
  let s1 := stopHls slotId s in
  let d := getHlsDir slotId s1 in
  let s2 := if existsSync d s1 then s1 else mkdirSync d s1 in
  let s3 := clearDir d s2 in
  let s4 := log (LogStarting slotId) s3 in
  let ffmpeg := length (children s4) in
  let s5 := spawn slotId (ffmpegArgs d rtspUrl) s4 in
  set_hlsStreams
    (<[slotId := {| process := ffmpeg; dir := d; slot_rtspUrl := rtspUrl;
                    startedAt := clock s5 |}]> (hlsStreams s5)) s5.

(** The observer [ffmpeg.on('exit', code => ...)] registered by
    [startHls slotId _] on the child with handle [ffmpeg]. *)
Definition onExit (slotId : string) (ffmpeg : nat) (code : option Z) (s : State) : State :=
  let s1 := log (LogExited slotId code) s in
  match hlsStreams s1 !! slotId with
  | Some e =>
      if decide (process e = ffmpeg)
      then set_hlsStreams (delete slotId (hlsStreams s1)) s1
      else s1
  | None => s1
  end.

(** The child with handle [p] exits: the operating system reaps it and
    its ['exit'] event runs the observer registered at its spawn. *)
Definition childExit (p : nat) (code : option Z) (s : State) : State :=
  match children s !! p with
  | Some c => onExit (child_slot c) p code (set_children (alter markExited p (children s)) s)
  | None => s
  end.

(** [Object.keys(hlsStreams).forEach(stopHls)] *)
Definition stopAllHls (s : State) : State :=
  foldl (fun s' k => stopHls k s') s (elements (dom (hlsStreams s))).

(** ** SDM API *)

Definition executeCommand (deviceId : string) (token : option string) (p : Payload) : Request :=
  {| hostname := "smartdevicemanagement.googleapis.com";
     path := "/v1/" ++ deviceId ++ ":executeCommand";
     method := "POST";
     authorization := Some ("Bearer " ++ show token);
     payload := p |}.

Definition generateStream (deviceId : string) : Async (option Results) :=
  let* token := getValidToken in
  let* res := httpsRequest (executeCommand deviceId token GenerateRtspStream) in
  ret (body_results (body res)).

Definition extendStream (deviceId : string) (ext : option string) : Async (option Results) :=
  let* token := getValidToken in
  let* res := httpsRequest (executeCommand deviceId token (ExtendRtspStream ext)) in
  ret (body_results (body res)).

(** ** HTTP handlers *)

Inductive Reply : Type :=
| Reply200Stream (hlsUrl : string) (ext expires : option string)
| Reply200Extend (result : option Results)
| Reply200Stopped
| Reply500 (e : Error).

(** [stream?.streamUrls?.rtspUrl] *)
Definition rtspUrlOf (stream : option Results) : option string :=
  match stream with
  | Some r =>
      match streamUrls r with
      | Some u => rtspUrl u
      | None => None
      end
  | None => None
  end.

(** [POST /api/stream]; [parsed] is [JSON.parse(body)] destructured into
    [deviceId] and [slotId], or [None] when that throws. *)
Definition apiStream (parsed : option (string * string)) : Async Reply :=
  tryCatch
    match parsed with
    | None => throw SyntaxError
    | Some (deviceId, slotId) =>
        let* stream := generateStream deviceId in
        match rtspUrlOf stream with
        | Some u =>
            if truthy (Some u) then
              let* _ := modify (startHls slotId u) in
              ret (Reply200Stream ("/hls/" ++ slotId ++ "/index.m3u8")
                     (stream ≫= streamExtensionToken) (stream ≫= expiresAt))
            else throw NoRtspUrl
        | None => throw NoRtspUrl
        end
    end
    (fun e => ret (Reply500 e)).

(** [POST /api/stop] *)
Definition apiStop (parsed : option string) : Async Reply :=
  tryCatch
    match parsed with
    | None => throw SyntaxError
    | Some slotId =>
        let* _ := modify (stopHls slotId) in
        ret Reply200Stopped
    end
    (fun e => ret (Reply500 e)).

(** [POST /api/extend]; [parsed] is the destructured [deviceId] and
    [streamExtensionToken]. *)
Definition apiExtend (parsed : option (string * option string)) : Async Reply :=
  tryCatch
    match parsed with
    | None => throw SyntaxError
    | Some (deviceId, ext) =>
        let* result := extendStream deviceId ext in
        ret (Reply200Extend result)
    end
    (fun e => ret (Reply500 e)).

(** ** Running computations *)

(** A delivery resumes a blocked computation at time [t] with outcome [o]. *)
Definition resume {A} (x : Step A) (t : Z) (o : Outcome) : Step A :=
  match x with
  | Done s r => Done s r
  | Blocked s _ k => k o (set_clock t s)
  end.

(** Runs a computation alone, nothing else touching the state while it
    waits, answering its requests in order from [ds]. *)
Fixpoint feed {A} (x : Step A) (ds : list (Z * Outcome)) : Step A :=
  match ds with
  | [] => x
  | (t, o) :: ds' => feed (resume x t o) ds'
  end.

Definition stateOf {A} (x : Step A) : State :=
  match x with
  | Done s _ => s
  | Blocked s _ _ => s
  end.

Definition resultOf {A} (x : Step A) : option (Error + A) :=
  match x with
  | Done _ r => Some r
  | Blocked _ _ _ => None
  end.

(** The token-endpoint requests among the requests issued so far. *)
Definition isRefresh (r : Request) : bool :=
  match payload r with
  | RefreshForm _ _ _ => true
  | _ => false
  end.

Definition refreshes (s : State) : nat :=
  length (List.filter isRefresh (sent s)).

(** [n] calls of an [async] function made one after the other in the same
    turn of the event loop: each runs until it blocks or finishes, on the
    state the previous one left; the result lists the calls, last first,
    and the state they leave. *)
Fixpoint launch {A} (n : nat) (m : Async A) (s : State) : list (Step A) * State :=
  match n with
  | O => ([], s)
  | S n' =>
      let '(xs, s') := launch n' m s in
      let x := m s' in
      (x :: xs, stateOf x)
  end.

(** ** Specification vocabulary *)

(** What [refreshAccessToken] does when its request is answered by [o] and
    it is resumed on [s]. *)
Definition refreshed (res : Response) (s : State) : State :=
  set_tokens
    (Some {| access_token := body_access_token (body res);
             refresh_token := match tokens s with Some t => refresh_token t | None => None end;
             expiry := num_add (Num (clock s))
                         (num_mul (toNumber (body_expires_in (body res))) (Num 1000)) |})
    s.

Definition refreshCont (o : Outcome) (s : State) : Step unit :=
  match o with
  | Resolved res =>
      if truthy (body_access_token (body res))
      then Done (refreshed res s) (inr tt)
      else Done s (inl (TokenRefreshFailed (body res)))
  | Rejected => Done s (inl RequestError)
  end.

(** What [getValidToken] does once the refresh it waited for is answered. *)
Definition validTokenCont (o : Outcome) (s : State) : Step (option string) :=
  match o with
  | Resolved res =>
      if truthy (body_access_token (body res))
      then Done (refreshed res s) (inr (body_access_token (body res)))
      else Done s (inl (TokenRefreshFailed (body res)))
  | Rejected => Done s (inl RequestError)
  end.

Definition issue (req : Request) (s : State) : State :=
  set_sent (sent s ++ [req]) s.

(** [getValidToken] on [s], whose store holds the refresh token [rt],
    refreshes once: it sends one request to the token endpoint and waits;
    answered at time [now] by a response with a non-empty [access_token]
    it stores that token with its expiry and returns it; answered by a
    response without one it throws the refresh failure, and when the
    request is rejected it throws the request's error, in both cases
    leaving the store as it was. No second token request is sent. *)
Definition refreshesOnce (s : State) (rt : option string) : Prop :=
  let req := tokenRequest (config s) rt in
  (exists k, getValidToken s = Blocked (issue req s) req k)
  /\ refreshes (issue req s) = S (refreshes s)
  /\ forall now,
       let s1 := set_clock now (issue req s) in
       (forall res,
          truthy (body_access_token (body res)) = true ->
          feed (getValidToken s) [(now, Resolved res)]
          = Done (set_tokens
                    (Some {| access_token := body_access_token (body res);
                             refresh_token := rt;
                             expiry := num_add (Num now)
                                         (num_mul (toNumber (body_expires_in (body res)))
                                            (Num 1000)) |}) s1)
              (inr (body_access_token (body res))))
       /\ (forall res,
            truthy (body_access_token (body res)) = false ->
            feed (getValidToken s) [(now, Resolved res)]
            = Done s1 (inl (TokenRefreshFailed (body res))))
       /\ feed (getValidToken s) [(now, Rejected)] = Done s1 (inl RequestError)
       /\ forall o,
            refreshes (stateOf (feed (getValidToken s) [(now, o)])) = S (refreshes s).

(** The state of the server when it starts listening: [initTokens] has
    run, no slot is registered and no child was spawned. *)
Definition boot (c : Config) (tmp : string) (REFRESH_TOKEN : option string) (now : Z) : State :=
  {| config := c; tmpdir := tmp; tokens := initTokens REFRESH_TOKEN;
     hlsStreams := ∅; children := []; fs := ∅; sent := []; console := [];
     clock := now |}.

Definition exampleConfig : Config :=
  {| clientId := Some "client"; clientSecret := Some "secret";
     projectId := Some "project"; redirectUri := Some "https://app/oauth/callback" |}.

(** A server whose store holds the access token [a] expiring at [e]. *)
Definition holding (a : option string) (e : number) (now : Z) : State :=
  set_tokens (Some {| access_token := a; refresh_token := Some "refresh-1"; expiry := e |})
    (boot exampleConfig "/tmp" (Some "refresh-1") now).

Definition tokenBody (a : option string) (expires : option Z) (r : option string) : Body :=
  {| body_access_token := a; body_expires_in := expires;
     body_refresh_token := r; body_results := None |}.

(** A child is live when it has not exited and no SIGKILL was sent to
    it; [liveFor s slot p] when moreover it was spawned for [slot]. *)
Definition liveFor (s : State) (slotId : string) (p : nat) : Prop :=
  exists c, children s !! p = Some c /\ child_slot c = slotId
            /\ child_killed c = false /\ child_exited c = false.

Definition registered (s : State) (slotId : string) (p : nat) : Prop :=
  exists e, hlsStreams s !! slotId = Some e /\ process e = p.


(** The turns of the event loop that touch the slot table or the
    children, and [step_env] for everything that touches neither (token
    refreshes, the clock, relay processes writing segments). *)
Inductive step : State -> State -> Prop :=
| step_start slotId rtspUrl s : step s (startHls slotId rtspUrl s)
| step_stop slotId s : step s (stopHls slotId s)
| step_stopAll s : step s (stopAllHls s)
| step_exit p c code s :
    children s !! p = Some c -> child_exited c = false ->
    step s (childExit p code s)
| step_env s s' :
    hlsStreams s' = hlsStreams s -> children s' = children s -> step s s'.


(** A staging directory for slot ["0"] that holds files of an earlier run. *)
Definition staleState : State :=
  set_fs {[ "/tmp/hls_0" := {[ "index.m3u8" := RegularFile; "seg000.ts" := RegularFile;
                               "seg001.ts" := RegularFile ]} ]}
    (boot exampleConfig "/tmp" None 1000).

(** Answers the calls [xs], in order, from [ds] on the shared state: each
    blocked call is resumed on the state its predecessors left. Returns
    what each call has produced and the final state. *)
Fixpoint settle {A} (xs : list (Step A)) (ds : list (Z * Outcome)) (s : State)
  : list (option (Error + A)) * State :=
  match xs with
  | [] => ([], s)
  | Done _ r :: xs' =>
      let '(rs, s') := settle xs' ds s in (Some r :: rs, s')
  | Blocked _ _ k :: xs' =>
      match ds with
      | [] => let '(rs, s') := settle xs' [] s in (None :: rs, s')
      | (t, o) :: ds' =>
          let y := k o (set_clock t s) in
          let '(rs, s') := settle xs' ds' (stateOf y) in
          (resultOf y :: rs, s')
      end
  end.

(** A call of [getValidToken] that waits for its own token request. *)
Definition awaitsRefresh (x : Step (option string)) : Prop :=
  exists s1 req k,
    x = Blocked s1 req k /\ isRefresh req = true
    /\ forall o s', k o s' = validTokenCont o s'.

(** [s'] has the slot table, the children and the staging directories of [s]. *)
Definition sameSlots (s s' : State) : Prop :=
  hlsStreams s' = hlsStreams s /\ children s' = children s /\ fs s' = fs s.

(** A computation that, however it is interleaved with others that do the
    same, only ever leaves states with the slots of [s0]. *)
Inductive keeps {A} (s0 : State) : Step A -> Prop :=
| keeps_Done s r : sameSlots s0 s -> keeps s0 (Done s r)
| keeps_Blocked s req k :
    sameSlots s0 s ->
    (forall o s', sameSlots s0 s' -> keeps s0 (k o s')) ->
    keeps s0 (Blocked s req k).

Definition Keeps {A} (m : Async A) : Prop :=
  forall s0 s, sameSlots s0 s -> keeps s0 (m s).

Definition grant (url ext expires : option string) : Results :=
  {| streamUrls := Some {| rtspUrl := url |};
     streamExtensionToken := ext; expiresAt := expires |}.

Definition grantBody (r : option Results) : Body :=
  {| body_access_token := None; body_expires_in := None;
     body_refresh_token := None; body_results := r |}.

(** ** Further vocabulary: slots, token refreshes, HLS files *)


(** One refresh after the other, each answered before the next is made. *)
Fixpoint refreshAll (ds : list (Z * Outcome)) (s : State) : State :=
  match ds with
  | [] => s
  | d :: ds' => refreshAll ds' (stateOf (feed (refreshAccessToken s) [d]))
  end.

Definition slash : Ascii.ascii := Ascii.Ascii true true true true false true false false.

(** [p.split('/')] *)
Fixpoint splitOn (sep : Ascii.ascii) (p : string) : list string :=
  match p with
  | EmptyString => [""]
  | String c rest =>
      if Ascii.eqb c sep then "" :: splitOn sep rest
      else match splitOn sep rest with
           | h :: t => String c h :: t
           | [] => [String c ""]
           end
  end.

Fixpoint hasChar (c : Ascii.ascii) (p : string) : bool :=
  match p with
  | EmptyString => false
  | String d rest => Ascii.eqb d c || hasChar c rest
  end.

(** The [/hls/] route: [parts[2]] and [parts[3]] of [p], the second
    being [undefined] when [p] has no fourth part. [p] is
    [url.parse(req.url).pathname], what [url.parse] makes of the request
    URL (cut at the first [?] or [#], some characters escaped), not the
    request URL itself. *)
Definition hlsParts (p : string) : option (string * option string) :=
  if String.prefix "/hls/" p then
    match splitOn slash p with
    | _ :: _ :: slotId :: rest => Some (slotId, head rest)
    | _ => None
    end
  else None.

(** [path.join(getHlsDir(slotId), filename)] of the [/hls/] route, for a
    normalised staging directory and a [filename] that is a plain
    segment; [None] when the route does not apply or [filename] is
    [undefined]. *)
Definition hlsFilepath (p : string) (s : State) : option string :=
  match hlsParts p with
  | Some (slotId, Some filename) => Some (path_join (getHlsDir slotId s) filename)
  | _ => None
  end.

(** [while (!fs.existsSync(filepath) && waited < 8000) { await sleep(200);
    waited += 200 }]: [present i] is what the [i]-th call of [existsSync]
    answers. Returns the index of the call that ended the loop and the
    time waited, or [None] when the fuel runs out first. *)
Fixpoint pollLoop (fuel : nat) (present : nat -> bool) (i : nat) (waited : Z)
  : option (nat * Z) :=
  match fuel with
  | O => None
  | S fuel' =>
      if negb (present i) && (waited <? 8000)%Z
      then pollLoop fuel' present (S i) (waited + 200)
      else Some (i, waited)
  end.

Inductive HlsAnswer : Type :=
| NotReady404
| Served200.

(** The rest of the route: [existsSync] is asked once more after the loop;
    the answer is 404 'Not ready' or the 200 header followed by the file. *)
Definition serveHls (fuel : nat) (present : nat -> bool) : option (HlsAnswer * Z) :=
  match pollLoop fuel present 0 0 with
  | Some (i, waited) =>
      Some (if present (S i) then Served200 else NotReady404, waited)
  | None => None
  end.

(** What can become of a child: it keeps its slot and command line, and
    once killed or exited it stays so. *)
Definition ages (c c' : Child) : Prop :=
  child_slot c' = child_slot c /\ child_args c' = child_args c
  /\ (child_killed c = true -> child_killed c' = true)
  /\ (child_exited c = true -> child_exited c' = true).

Definition grows (l l' : list Child) : Prop :=
  forall p c, l !! p = Some c -> exists c', l' !! p = Some c' /\ ages c c'.


(** ** The effects of [startHls], in the order the code performs them *)









(** ** The slot table as the JavaScript object it is *)

(** [hlsStreams] is a plain object created by [{}]. Its own properties are
    the entries of [hlsStreams (st t)] under keys other than ["__proto__"];
    [prototype t] is the entry last assigned to [hlsStreams['__proto__']],
    which that assignment made the object's prototype. Before any such
    assignment the prototype is [Object.prototype]. *)
Record Server : Type := {
  st : State;
  prototype : option Slot
}.

Definition onState (f : State -> State) (t : Server) : Server :=
  {| st := f (st t); prototype := prototype t |}.

(** What a read [hlsStreams[k]] gives: [undefined], an entry, or some
    other value, of which only the truthiness matters to the server (a
    function or object inherited from the prototype chain, a field of the
    entry that is the prototype). *)
Inductive Read : Type :=
| Undefined
| Entry (e : Slot)
| Other (isTruthy : bool).

(** The property names of [Object.prototype] other than [__proto__]. *)
Definition objectPrototypeKeys : list string :=
  [ "constructor"; "__defineGetter__"; "__defineSetter__"; "hasOwnProperty";
    "__lookupGetter__"; "__lookupSetter__"; "isPrototypeOf";
    "propertyIsEnumerable"; "toString"; "valueOf"; "toLocaleString" ].

Definition fromObjectPrototype (k : string) : Read :=
  if bool_decide (k ∈ objectPrototypeKeys) then Other true else Undefined.

(** A key found on the entry [e] that is the prototype:
    [{ process, dir, rtspUrl, startedAt }]. *)
Definition fromEntry (e : Slot) (k : string) : Read :=
  if decide (k = "process") then Other true
  else if decide (k = "dir") then Other (truthy (Some (dir e)))
  else if decide (k = "rtspUrl") then Other (truthy (Some (slot_rtspUrl e)))
  else if decide (k = "startedAt") then Other (negb (startedAt e =? 0)%Z)
  else fromObjectPrototype k.

(** [hlsStreams[k]] *)
Definition readSlot (k : string) (t : Server) : Read :=
  if decide (k = "__proto__") then
    match prototype t with
    | Some e => Entry e
    | None => Other true
    end
  else
    match hlsStreams (st t) !! k with
    | Some e => Entry e
    | None =>
        match prototype t with
        | Some e => fromEntry e k
        | None => fromObjectPrototype k
        end
    end.

(** [hlsStreams[k] = e]: an own property, except for ["__proto__"], whose
    setter replaces the prototype. *)
Definition writeSlot (k : string) (e : Slot) (t : Server) : Server :=
  if decide (k = "__proto__") then {| st := st t; prototype := Some e |}
  else onState (fun s => set_hlsStreams (<[k := e]> (hlsStreams s)) s) t.

(** [delete hlsStreams[k]]: removes an own property and nothing else. *)
Definition deleteSlot (k : string) (t : Server) : Server :=
  if decide (k = "__proto__") then t
  else onState (fun s => set_hlsStreams (delete k (hlsStreams s)) s) t.

(** [stopHls]: the [kill] of a value that is no entry throws a [TypeError]
    ([.process] is [undefined]), which the [try] swallows. *)
Definition stopHlsObj (slotId : string) (t : Server) : Server :=
  match readSlot slotId t with
  | Entry e =>
      onState (log (LogStopped slotId)) (deleteSlot slotId (onState (kill (process e)) t))
  | Other true =>
      onState (log (LogStopped slotId)) (deleteSlot slotId t)
  | Other false | Undefined => t
  end.

Definition startHlsObj (slotId rtspUrl : string) (t : Server) : Server :=
  let t1 := stopHlsObj slotId t in
  let d := getHlsDir slotId (st t1) in
  let t2 := onState (fun s => if existsSync d s then s else mkdirSync d s) t1 in
  let t3 := onState (clearDir d) t2 in
  let t4 := onState (log (LogStarting slotId)) t3 in
  let ffmpeg := length (children (st t4)) in
  let t5 := onState (spawn slotId (ffmpegArgs d rtspUrl)) t4 in
  writeSlot slotId
    {| process := ffmpeg; dir := d; slot_rtspUrl := rtspUrl;
       startedAt := clock (st t5) |} t5.

(** The exit observer: [hlsStreams[slotId]?.process === ffmpeg] holds only
    of an entry whose process is [ffmpeg]. *)
Definition onExitObj (slotId : string) (ffmpeg : nat) (code : option Z) (t : Server) : Server :=
  let t1 := onState (log (LogExited slotId code)) t in
  match readSlot slotId t1 with
  | Entry e => if decide (process e = ffmpeg) then deleteSlot slotId t1 else t1
  | _ => t1
  end.

Definition childExitObj (p : nat) (code : option Z) (t : Server) : Server :=
  match children (st t) !! p with
  | Some c =>
      onExitObj (child_slot c) p code
        (onState (fun s => set_children (alter markExited p (children s)) s) t)
  | None => t
  end.

(** [Object.keys(hlsStreams).forEach(stopHls)], [keys] being what
    [Object.keys] returns: the object's own keys in its own order. *)
Definition stopAllHlsObj (keys : list string) (t : Server) : Server :=
  foldl (fun t' k => stopHlsObj k t') t keys.

Definition ownKeys (t : Server) : list string :=
  elements (dom (hlsStreams (st t))).

(** The state of [startHlsObj] just before the entry is assigned, and the
    entry it then assigns. *)
Definition spawned (k url : string) (t : Server) : State :=
  spawn k (ffmpegArgs (getHlsDir k (st t)) url)
    (log (LogStarting k)
       (clearDir (getHlsDir k (st t))
          (if existsSync (getHlsDir k (st t)) (st t)
           then st (stopHlsObj k t)
           else mkdirSync (getHlsDir k (st t)) (st (stopHlsObj k t))))).

Definition newEntry (k url : string) (t : Server) : Slot :=
  {| process := length (children (st t)); dir := getHlsDir k (st t);
     slot_rtspUrl := url; startedAt := clock (st t) |}.

Inductive stepObj : Server -> Server -> Prop :=
| stepObj_start slotId rtspUrl t : stepObj t (startHlsObj slotId rtspUrl t)
| stepObj_stop slotId t : stepObj t (stopHlsObj slotId t)
| stepObj_stopAll keys t : keys ≡ₚ ownKeys t -> stepObj t (stopAllHlsObj keys t)
| stepObj_exit p c code t :
    children (st t) !! p = Some c -> child_exited c = false ->
    stepObj t (childExitObj p code t)
| stepObj_env t s' :
    hlsStreams s' = hlsStreams (st t) -> children s' = children (st t) ->
    stepObj t {| st := s'; prototype := prototype t |}.

Definition bootObj (s : State) : Server := {| st := s; prototype := None |}.

Definition reachableObj (t : Server) : Prop :=
  exists s0, hlsStreams s0 = ∅ /\ children s0 = [] /\ rtc stepObj (bootObj s0) t.

(** What holds of the object in every state the server reaches. *)
Record objInv (t : Server) : Prop := {
  inv_own : hlsStreams (st t) !! "__proto__" = None;
  inv_sound : forall A e, hlsStreams (st t) !! A = Some e -> liveFor (st t) A (process e);
  inv_live : forall p c,
      children (st t) !! p = Some c ->
      child_killed c = false -> child_exited c = false ->
      child_slot c <> "__proto__" ->
      registered (st t) (child_slot c) p;
  inv_proto : forall e,
      prototype t = Some e ->
      exists c, children (st t) !! process e = Some c /\ child_slot c = "__proto__"
}.

(** A live child that was spawned for ["__proto__"] is the process of the
    entry that is the prototype. *)
Definition protoInv (t : Server) : Prop :=
  forall p c,
    children (st t) !! p = Some c ->
    child_killed c = false -> child_exited c = false ->
    child_slot c = "__proto__" ->
    exists e, prototype t = Some e /\ process e = p.


(** ** Paths as Node.js joins them *)

(** [normalizeString] of Node's [path] module, on the segments between
    the separators: empty segments and [.] are dropped, [..] drops the
    segment before it, or is kept when there is none to drop and the path
    is relative. [res] is the result so far, last segment first. *)
Fixpoint normalizeString (allowAboveRoot : bool) (res segs : list string) : list string :=
  match segs with
  | [] => rev res
  | seg :: rest =>
      if decide (seg = "" \/ seg = ".") then normalizeString allowAboveRoot res rest
      else if decide (seg = "..") then
        match res with
        | top :: res' =>
            if decide (top = "..")
            then normalizeString allowAboveRoot
                   (if allowAboveRoot then ".." :: res else res) rest
            else normalizeString allowAboveRoot res' rest
        | [] =>
            normalizeString allowAboveRoot
              (if allowAboveRoot then [".."] else []) rest
        end
      else normalizeString allowAboveRoot (seg :: res) rest
  end.

Fixpoint endsWith (c : Ascii.ascii) (p : string) : bool :=
  match p with
  | EmptyString => false
  | String d rest =>
      match rest with
      | EmptyString => Ascii.eqb d c
      | String _ _ => endsWith c rest
      end
  end.

(** [path.posix.normalize] *)
Definition posix_normalize (p : string) : string :=
  if decide (p = "") then "."
  else
    let isAbsolute := String.prefix "/" p in
    let trailingSeparator := endsWith slash p in
    let body := String.concat "/" (normalizeString (negb isAbsolute) [] (splitOn slash p)) in
    if decide (body = "") then
      (if isAbsolute then "/" else if trailingSeparator then "./" else ".")
    else
      let body := if trailingSeparator then body ++ "/" else body in
      if isAbsolute then "/" ++ body else body.

(** [path.posix.join(a, b)]: the arguments that are not empty, joined by
    ['/'] and normalised. *)
Definition posix_join (a b : string) : string :=
  if decide (a = "") then (if decide (b = "") then "." else posix_normalize b)
  else if decide (b = "") then posix_normalize a
  else posix_normalize (a ++ "/" ++ b).

(** A segment that normalisation leaves alone. *)
Definition plainSegment (x : string) : Prop :=
  hasChar slash x = false /\ x <> "" /\ x <> "." /\ x <> "..".

(** The absolute path of the given segments: [/a/b] for [a] and [b]. *)
Fixpoint absolutePath (segs : list string) : string :=
  match segs with
  | [] => ""
  | x :: rest => "/" ++ x ++ absolutePath rest
  end.

(** An absolute path in normal form that is not the root, as [os.tmpdir()]
    returns. *)
Definition normalDir (d : string) : Prop :=
  exists segs, segs <> [] /\ Forall plainSegment segs /\ d = absolutePath segs.

(** ** Handlers among the rest of the server *)

(** Resuming a waiting computation with the outcome [o] on [s'], the state
    that whatever ran while it waited has left. *)
Definition resumeOn {A} (x : Step A) (s' : State) (o : Outcome) : Step A :=
  match x with
  | Done s r => Done s r
  | Blocked _ _ k => k o s'
  end.

Fixpoint resumeAll {A} (x : Step A) (l : list (State * Outcome)) : Step A :=
  match l with
  | [] => x
  | (s', o) :: l' => resumeAll (resumeOn x s' o) l'
  end.

Definition waiting {A} (x : Step A) : bool :=
  match x with
  | Done _ _ => false
  | Blocked _ _ _ => true
  end.

(** A computation that never changes the slots: started on [s0] it leaves
    the slots of [s0] when it first stops, and each time it is resumed,
    on whatever state [s'], it leaves the slots of that [s'] when it stops
    next. *)
Inductive quiet {A} : State -> Step A -> Prop :=
| quiet_Done s0 s r : sameSlots s0 s -> quiet s0 (Done s r)
| quiet_Blocked s0 s req k :
    sameSlots s0 s ->
    (forall o s', quiet s' (k o s')) ->
    quiet s0 (Blocked s req k).

Definition Quiet {A} (m : Async A) : Prop := forall s, quiet s (m s).

(** * Properties *)

(** ** Running computations *)

Lemma feed_Done {A} (s : State) (r : Error + A) ds : feed (Done s r) ds = Done s r.
Proof. induction ds as [|[t o] ds IH]; simpl; auto. Qed.

Lemma refreshes_issue req s :
  refreshes (issue req s) = (refreshes s + (if isRefresh req then 1 else 0))%nat.
Proof.
  unfold refreshes, issue; simpl.
  rewrite List.filter_app, length_app; simpl.
  destruct (isRefresh req); reflexivity.
Qed.

Lemma refreshes_set_clock t s : refreshes (set_clock t s) = refreshes s.
Proof. reflexivity. Qed.

Lemma refreshes_refreshed res s : refreshes (refreshed res s) = refreshes s.
Proof. reflexivity. Qed.

(** ** Credential broker *)

Lemma refreshAccessToken_blocks s t :
  tokens s = Some t ->
  exists k,
    refreshAccessToken s
      = Blocked (issue (tokenRequest (config s) (refresh_token t)) s)
          (tokenRequest (config s) (refresh_token t)) k
    /\ forall o s', k o s' = refreshCont o s'.
Proof.
  intros Ht. unfold refreshAccessToken, bind, gets; simpl. rewrite Ht; simpl.
  eexists; split; [reflexivity|].
  intros [res|] s'; simpl; [|reflexivity].
  destruct (truthy (body_access_token (body res))); reflexivity.
Qed.

Lemma getValidToken_cached s t :
  tokens s = Some t -> needsRefresh t (clock s) = false ->
  getValidToken s = Done s (inr (access_token t)).
Proof.
  intros Ht Hn. unfold getValidToken, bind, gets; simpl. rewrite Ht; simpl.
  rewrite Hn; simpl. rewrite Ht. reflexivity.
Qed.

Lemma getValidToken_blocks s t :
  tokens s = Some t -> needsRefresh t (clock s) = true ->
  exists k,
    getValidToken s
      = Blocked (issue (tokenRequest (config s) (refresh_token t)) s)
          (tokenRequest (config s) (refresh_token t)) k
    /\ forall o s', k o s' = validTokenCont o s'.
Proof.
  intros Ht Hn. unfold getValidToken, bind, gets; simpl. rewrite Ht; simpl.
  rewrite Hn. unfold refreshAccessToken, bind, gets; simpl. rewrite Ht; simpl.
  eexists; split; [reflexivity|].
  intros [res|] s'; simpl; [|reflexivity].
  destruct (truthy (body_access_token (body res))); reflexivity.
Qed.

Lemma getValidToken_unauthenticated s :
  tokens s = None -> getValidToken s = Done s (inl NotAuthenticated).
Proof.
  intros Ht. unfold getValidToken, bind, gets; simpl. rewrite Ht. reflexivity.
Qed.

Lemma needsRefresh_num a rt e now :
  needsRefresh {| access_token := a; refresh_token := rt; expiry := Num e |} now = false
  <-> truthy a = true /\ (now <= e - 60000)%Z.
Proof.
  unfold needsRefresh; simpl. rewrite orb_false_iff, negb_false_iff, Z.ltb_ge.
  reflexivity.
Qed.

Lemma validTokenCont_refreshes o s :
  refreshes (stateOf (validTokenCont o s)) = refreshes s.
Proof.
  destruct o as [res|]; simpl; [|reflexivity].
  destruct (truthy (body_access_token (body res))); reflexivity.
Qed.

(** C2 (as the code has it). With a numeric expiry [e], [getValidToken]
    returns the cached access token at once, issuing no request and leaving
    the state as it is, exactly when the token is present and
    [now <= e - 60000]; in every other case it refreshes once
    ([refreshesOnce]): it issues one token request and, when that is
    answered, returns the access token of the response, or throws the
    refresh failure or the request's error, without issuing another. An
    expiry 30 s ahead gives one refresh, an expiry 3600 s ahead none. *)
Theorem getValidToken_refresh_boundary
    (s : State) (a rt : option string) (e : Z) :
  tokens s = Some {| access_token := a; refresh_token := rt; expiry := Num e |} ->
  (getValidToken s = Done s (inr a) <-> truthy a = true /\ (clock s <= e - 60000)%Z)
  /\ (~ (truthy a = true /\ (clock s <= e - 60000)%Z) -> refreshesOnce s rt)
  /\ (e = (clock s + 30000)%Z -> refreshesOnce s rt)
  /\ (truthy a = true -> e = (clock s + 3600000)%Z ->
      getValidToken s = Done s (inr a)).
Proof.
  intros Ht.
  assert (Hone : needsRefresh {| access_token := a; refresh_token := rt; expiry := Num e |}
                   (clock s) = true -> refreshesOnce s rt).
  { intros Hn. destruct (getValidToken_blocks s _ Ht Hn) as (k & Hk & Hcont).
    simpl in Hk. unfold refreshesOnce. cbv zeta.
    split; [exists k; exact Hk|]. split; [rewrite refreshes_issue; simpl; lia|].
    intros now. split; [|split; [|split]].
    - intros res Hres. rewrite Hk. simpl. rewrite Hcont. simpl. rewrite Hres.
      unfold refreshed. simpl. rewrite Ht. reflexivity.
    - intros res Hres. rewrite Hk. simpl. rewrite Hcont. simpl. rewrite Hres. reflexivity.
    - rewrite Hk. simpl. rewrite Hcont. reflexivity.
    - intros o. rewrite Hk. simpl. rewrite Hcont, validTokenCont_refreshes.
      rewrite refreshes_set_clock, refreshes_issue. simpl. lia. }
  assert (Hdec : needsRefresh {| access_token := a; refresh_token := rt; expiry := Num e |}
                   (clock s) = true
                 \/ (truthy a = true /\ (clock s <= e - 60000)%Z)).
  { clear Hone. destruct (needsRefresh _ (clock s)) eqn:Hn; [left; reflexivity|].
    right. apply needsRefresh_num in Hn. exact Hn. }
  split; [|split; [|split]].
  - split.
    + intros Hd. destruct Hdec as [Hn|Hc]; [|exact Hc].
      destruct (getValidToken_blocks s _ Ht Hn) as (k & Hk & _). congruence.
    + intros Hc. apply (needsRefresh_num a rt) in Hc.
      apply (getValidToken_cached s _ Ht Hc).
  - intros Hc. apply Hone. destruct Hdec as [Hn|Hc']; [exact Hn|contradiction].
  - intros He. apply Hone. destruct Hdec as [Hn|[_ Hc']]; [exact Hn|lia].
  - intros Ha He. apply (getValidToken_cached s _ Ht).
    apply needsRefresh_num. split; [assumption|lia].
Qed.

Lemma getValidToken_refresh_boundary_witness :
  (getValidToken (holding (Some "tok") (Num 100000) 40000)
     = Done (holding (Some "tok") (Num 100000) 40000) (inr (Some "tok"))
   <-> truthy (Some "tok") = true
       /\ (clock (holding (Some "tok") (Num 100000) 40000) <= 100000 - 60000)%Z).
Proof.
  exact (proj1 (getValidToken_refresh_boundary
                  (holding (Some "tok") (Num 100000) 40000)
                  (Some "tok") (Some "refresh-1") 100000 eq_refl)).
Defined.

(** C2 fails as stated: exactly at [now = expiry - 60000] the claim asks
    for a refresh ([now < expiry - margin] does not hold), and the code
    returns the cached token without one. *)
Lemma getValidToken_boundary_counterexample :
  ~ (getValidToken (holding (Some "tok") (Num 100000) 40000)
       = Done (holding (Some "tok") (Num 100000) 40000) (inr (Some "tok"))
     <-> (clock (holding (Some "tok") (Num 100000) 40000) < 100000 - 60000)%Z).
Proof.
  intros [H _].
  assert (Hc : getValidToken (holding (Some "tok") (Num 100000) 40000)
               = Done (holding (Some "tok") (Num 100000) 40000) (inr (Some "tok"))).
  { apply (getValidToken_cached _
             {| access_token := Some "tok"; refresh_token := Some "refresh-1";
                expiry := Num 100000 |}); reflexivity. }
  specialize (H Hc). simpl in H. lia.
Qed.

(** C3 (as the code has it). Answered by a response, [refreshAccessToken]
    succeeds exactly when the body carries a non-empty [access_token],
    whatever the status; it then replaces [access_token] and [expiry] in
    one assignment and keeps the stored [refresh_token], also when the body
    brings a new one. Otherwise it throws and assigns nothing. *)
Theorem refreshAccessToken_outcome
    (s : State) (t : Tokens) (now : Z) (res : Response) :
  tokens s = Some t ->
  feed (refreshAccessToken s) [(now, Resolved res)]
  = (let s1 := set_clock now (issue (tokenRequest (config s) (refresh_token t)) s) in
     if truthy (body_access_token (body res))
     then Done (set_tokens
                  (Some {| access_token := body_access_token (body res);
                           refresh_token := refresh_token t;
                           expiry := num_add (Num now)
                                       (num_mul (toNumber (body_expires_in (body res)))
                                          (Num 1000)) |}) s1)
            (inr tt)
     else Done s1 (inl (TokenRefreshFailed (body res)))).
Proof.
  intros Ht. destruct (refreshAccessToken_blocks s t Ht) as (k & Hk & Hcont).
  rewrite Hk. simpl. rewrite Hcont. simpl.
  destruct (truthy (body_access_token (body res))); [|reflexivity].
  unfold refreshed; simpl. rewrite Ht. reflexivity.
Qed.

Lemma refreshAccessToken_outcome_witness :
  feed (refreshAccessToken (holding None (Num 0) 5000))
    [(6000%Z, Resolved {| status := 200; body := tokenBody (Some "fresh") (Some 3600%Z) None |})]
  = Done (set_tokens
            (Some {| access_token := Some "fresh"; refresh_token := Some "refresh-1";
                     expiry := Num 3606000 |})
            (set_clock 6000
               (issue (tokenRequest exampleConfig (Some "refresh-1"))
                  (holding None (Num 0) 5000))))
      (inr tt).
Proof.
  exact (refreshAccessToken_outcome (holding None (Num 0) 5000)
           {| access_token := None; refresh_token := Some "refresh-1"; expiry := Num 0 |}
           6000 {| status := 200; body := tokenBody (Some "fresh") (Some 3600%Z) None |}
           eq_refl).
Defined.

(** C3 fails as stated on both counts: a rotated [refresh_token] in the
    response is not adopted, and a response with a non-success status that
    carries an [access_token] is accepted. *)
Lemma refreshAccessToken_counterexample :
  (exists s',
     feed (refreshAccessToken (holding None (Num 0) 5000))
       [(6000%Z, Resolved {| status := 200;
                             body := tokenBody (Some "fresh") (Some 3600%Z) (Some "rotated") |})]
     = Done s' (inr tt)
     /\ (tokens s' ≫= refresh_token) = Some "refresh-1"
     /\ (tokens s' ≫= refresh_token) <> Some "rotated")
  /\ (exists s',
       feed (refreshAccessToken (holding None (Num 0) 5000))
         [(6000%Z, Resolved {| status := 500;
                               body := tokenBody (Some "fresh") (Some 3600%Z) None |})]
       = Done s' (inr tt)
       /\ (tokens s' ≫= access_token) = Some "fresh").
Proof.
  split; eexists; (split; [reflexivity|]); simpl; [split|]; congruence.
Qed.

(** C10. A refresh that fails leaves the token store as it was: when the
    response has no (non-empty) [access_token] the call throws and the
    store is unchanged; the store is unchanged whatever made the call
    fail; and, resumed on any later state, the failing call returns that
    state untouched. *)
Theorem refresh_failure_keeps_store (s : State) (t : Tokens) :
  tokens s = Some t ->
  (forall now res,
     truthy (body_access_token (body res)) = false ->
     exists s',
       feed (refreshAccessToken s) [(now, Resolved res)]
       = Done s' (inl (TokenRefreshFailed (body res)))
       /\ tokens s' = Some t)
  /\ (forall now o s' e,
       feed (refreshAccessToken s) [(now, o)] = Done s' (inl e) ->
       tokens s' = Some t)
  /\ (exists k req s1,
       refreshAccessToken s = Blocked s1 req k
       /\ tokens s1 = Some t
       /\ forall o s2 s' e, k o s2 = Done s' (inl e) -> s' = s2).
Proof.
  intros Ht. destruct (refreshAccessToken_blocks s t Ht) as (k & Hk & Hcont).
  split; [|split].
  - intros now res Hf. rewrite Hk. simpl. rewrite Hcont. simpl. rewrite Hf.
    eexists; split; [reflexivity|]. exact Ht.
  - intros now o s' e. rewrite Hk. simpl. rewrite Hcont.
    destruct o as [res|]; simpl.
    + destruct (truthy (body_access_token (body res))); intros H; inversion H; subst.
      exact Ht.
    + intros H; inversion H; subst. exact Ht.
  - exists k. do 2 eexists. split; [exact Hk|]. split; [exact Ht|].
    intros o s2 s' e. rewrite Hcont.
    destruct o as [res|]; simpl.
    + destruct (truthy (body_access_token (body res))); intros H; inversion H; subst.
      reflexivity.
    + intros H; inversion H; subst. reflexivity.
Qed.

Lemma refresh_failure_keeps_store_witness :
  exists s',
    feed (refreshAccessToken (holding (Some "old") (Num 100000) 90000))
      [(91000%Z, Resolved {| status := 400; body := tokenBody None None None |})]
    = Done s' (inl (TokenRefreshFailed (tokenBody None None None)))
    /\ tokens s' = Some {| access_token := Some "old"; refresh_token := Some "refresh-1";
                           expiry := Num 100000 |}.
Proof.
  exact (proj1 (refresh_failure_keeps_store
                  (holding (Some "old") (Num 100000) 90000)
                  {| access_token := Some "old"; refresh_token := Some "refresh-1";
                     expiry := Num 100000 |} eq_refl)
           91000%Z {| status := 400; body := tokenBody None None None |} eq_refl).
Defined.

(** ** HLS stream manager *)

Lemma stopHls_absent slotId s :
  hlsStreams s !! slotId = None -> stopHls slotId s = s.
Proof. intros H. unfold stopHls. rewrite H. reflexivity. Qed.

Lemma stopHls_present slotId s e :
  hlsStreams s !! slotId = Some e ->
  stopHls slotId s
  = log (LogStopped slotId)
      (set_hlsStreams (delete slotId (hlsStreams s)) (kill (process e) s)).
Proof. intros H. unfold stopHls. rewrite H. reflexivity. Qed.

Lemma stopHls_hlsStreams slotId s :
  hlsStreams (stopHls slotId s) = delete slotId (hlsStreams s).
Proof.
  unfold stopHls. destruct (hlsStreams s !! slotId) eqn:H; simpl; [reflexivity|].
  symmetry. apply delete_id. exact H.
Qed.

Lemma stopHls_children slotId s :
  children (stopHls slotId s)
  = match hlsStreams s !! slotId with
    | Some e => alter markKilled (process e) (children s)
    | None => children s
    end.
Proof. unfold stopHls. destruct (hlsStreams s !! slotId); reflexivity. Qed.


Lemma stopHls_length slotId s :
  length (children (stopHls slotId s)) = length (children s).
Proof.
  rewrite stopHls_children. destruct (hlsStreams s !! slotId); [|reflexivity].
  apply length_alter.
Qed.

Lemma stopHls_frame slotId s :
  fs (stopHls slotId s) = fs s /\ tmpdir (stopHls slotId s) = tmpdir s
  /\ clock (stopHls slotId s) = clock s /\ tokens (stopHls slotId s) = tokens s.
Proof. unfold stopHls. destruct (hlsStreams s !! slotId); simpl; auto. Qed.

Lemma startHls_unfold slotId rtspUrl s :
  exists s4,
    startHls slotId rtspUrl s
    = set_hlsStreams
        (<[slotId := {| process := length (children s);
                        dir := getHlsDir slotId s;
                        slot_rtspUrl := rtspUrl;
                        startedAt := clock s |}]> (delete slotId (hlsStreams s)))
        (spawn slotId (ffmpegArgs (getHlsDir slotId s) rtspUrl) s4)
    /\ children s4 = children (stopHls slotId s)
    /\ hlsStreams s4 = delete slotId (hlsStreams s)
    /\ fs s4 = fs (clearDir (getHlsDir slotId s)
                     (if existsSync (getHlsDir slotId s) (stopHls slotId s)
                      then stopHls slotId s
                      else mkdirSync (getHlsDir slotId s) (stopHls slotId s))).
Proof.
  destruct (stopHls_frame slotId s) as (Hfs & Htmp & Hclock & _).
  assert (Hdir : getHlsDir slotId (stopHls slotId s) = getHlsDir slotId s).
  { unfold getHlsDir. rewrite Htmp. reflexivity. }
  eexists. split; [|split; [|split]].
  - unfold startHls. rewrite Hdir.
    set (s2 := if existsSync _ _ then _ else _).
    set (s3 := clearDir _ s2).
    assert (Hc3 : children s3 = children (stopHls slotId s)).
    { unfold s3, clearDir. destruct (fs s2 !! _); unfold s2;
        destruct (existsSync _ _); reflexivity. }
    assert (Hh3 : hlsStreams s3 = delete slotId (hlsStreams s)).
    { rewrite <- stopHls_hlsStreams. unfold s3, clearDir. destruct (fs s2 !! _); unfold s2;
        destruct (existsSync _ _); reflexivity. }
    assert (Hk3 : clock s3 = clock s).
    { rewrite <- Hclock. unfold s3, clearDir. destruct (fs s2 !! _); unfold s2;
        destruct (existsSync _ _); reflexivity. }
    simpl. rewrite Hc3, Hh3, Hk3, stopHls_length. reflexivity.
  - simpl. unfold clearDir.
    destruct (fs _ !! _); destruct (existsSync _ _); reflexivity.
  - simpl. rewrite <- stopHls_hlsStreams. unfold clearDir.
    destruct (fs _ !! _); destruct (existsSync _ _); reflexivity.
  - reflexivity.
Qed.

Lemma startHls_hlsStreams slotId rtspUrl s :
  hlsStreams (startHls slotId rtspUrl s)
  = <[slotId := {| process := length (children s);
                   dir := getHlsDir slotId s;
                   slot_rtspUrl := rtspUrl;
                   startedAt := clock s |}]> (hlsStreams s).
Proof.
  destruct (startHls_unfold slotId rtspUrl s) as (s4 & -> & _).
  simpl. apply insert_delete_eq.
Qed.

Lemma startHls_children slotId rtspUrl s :
  children (startHls slotId rtspUrl s)
  = (children (stopHls slotId s)
       ++ [newChild slotId (ffmpegArgs (getHlsDir slotId s) rtspUrl)])%list.
Proof.
  destruct (startHls_unfold slotId rtspUrl s) as (s4 & -> & Hc & _).
  simpl. rewrite Hc. reflexivity.
Qed.

(** *** The table accounts for every live child *)

Lemma alter_absent (f : Child -> Child) (l : list Child) i :
  l !! i = None -> alter f i l = l.
Proof.
  intros H. apply list_eq. intros j.
  destruct (decide (i = j)) as [<-|Hne].
  - rewrite list_lookup_alter_eq, H. reflexivity.
  - apply list_lookup_alter_ne. exact Hne.
Qed.

Lemma lookup_alter_same (f : Child -> Child) (l : list Child) i c :
  alter f i l !! i = Some c -> exists c0, l !! i = Some c0 /\ c = f c0.
Proof.
  rewrite list_lookup_alter_eq. destruct (l !! i) as [c0|]; simpl; [|discriminate].
  intros H; inversion H. exists c0. auto.
Qed.





Lemma onExit_children slotId p code s :
  children (onExit slotId p code s) = children s.
Proof.
  unfold onExit; simpl. destruct (hlsStreams s !! slotId) as [e|]; [|reflexivity].
  destruct (decide (process e = p)); reflexivity.
Qed.

Lemma childExit_children p code s :
  children (childExit p code s) = alter markExited p (children s).
Proof.
  unfold childExit. destruct (children s !! p) as [c|] eqn:Hc.
  - rewrite onExit_children. reflexivity.
  - symmetry. apply alter_absent. exact Hc.
Qed.








Lemma startHls_frame slotId rtspUrl s :
  tmpdir (startHls slotId rtspUrl s) = tmpdir s
  /\ clock (startHls slotId rtspUrl s) = clock s
  /\ tokens (startHls slotId rtspUrl s) = tokens s
  /\ sent (startHls slotId rtspUrl s) = sent s.
Proof.
  unfold startHls, clearDir, stopHls.
  destruct (hlsStreams s !! slotId); simpl;
    destruct (existsSync _ _); simpl; destruct (_ !! _); simpl; auto.
Qed.


Lemma startHls_spawns slotId rtspUrl s :
  children (startHls slotId rtspUrl s) !! length (children s)
  = Some (newChild slotId (ffmpegArgs (getHlsDir slotId s) rtspUrl))
  /\ length (children (startHls slotId rtspUrl s)) = S (length (children s)).
Proof.
  rewrite startHls_children. split.
  - rewrite lookup_app_r by (rewrite stopHls_length; lia).
    rewrite stopHls_length, Nat.sub_diag. reflexivity.
  - rewrite length_app, stopHls_length. simpl. lia.
Qed.



(** *** Staging directory *)












Lemma clearDir_children d s : children (clearDir d s) = children s.
Proof. unfold clearDir. destruct (fs s !! d); reflexivity. Qed.






(** ** Concurrent calls of [getValidToken] *)

Lemma launch_expired n s t :
  tokens s = Some t -> needsRefresh t (clock s) = true ->
  let r := launch n getValidToken s in
  tokens (snd r) = Some t /\ clock (snd r) = clock s
  /\ refreshes (snd r) = (refreshes s + n)%nat
  /\ length (fst r) = n
  /\ Forall awaitsRefresh (fst r).
Proof.
  intros Ht Hn. induction n as [|n IH]; simpl.
  - split; [exact Ht|]. split; [reflexivity|]. split; [lia|]. split; [reflexivity|].
    constructor.
  - destruct (launch n getValidToken s) as [xs s'] eqn:Hl. simpl in IH |- *.
    destruct IH as (Ht' & Hc' & Hr' & Hlen & Hall).
    assert (Hn' : needsRefresh t (clock s') = true) by (rewrite Hc'; exact Hn).
    destruct (getValidToken_blocks s' t Ht' Hn') as (k & Hk & Hcont).
    rewrite Hk. simpl. split; [|split; [|split; [|split]]].
    + exact Ht'.
    + exact Hc'.
    + rewrite refreshes_issue. simpl. lia.
    + rewrite Hlen. reflexivity.
    + constructor; [|exact Hall]. do 3 eexists. split; [reflexivity|]. split; [reflexivity|].
      exact Hcont.
Qed.

Lemma settle_refreshes xs ds s :
  Forall awaitsRefresh xs -> refreshes (snd (settle xs ds s)) = refreshes s.
Proof.
  intros Hall. revert ds s. induction Hall as [|x xs Hx _ IH]; intros ds s; [reflexivity|].
  destruct Hx as (s1 & req & k & -> & _ & Hcont). simpl.
  destruct ds as [|[t o] ds].
  - specialize (IH [] s). destruct (settle xs [] s). exact IH.
  - specialize (IH ds (stateOf (k o (set_clock t s)))).
    destruct (settle xs ds _). simpl in *. rewrite IH, Hcont.
    rewrite validTokenCont_refreshes. reflexivity.
Qed.

(** C4 (as the code has it). [n] calls of [getValidToken] made in the same
    turn while the cached token needs a refresh each issue their own token
    request: [n] requests are on the wire once the calls are made, every
    call waits for its own, and answering them issues no further one. *)
Theorem concurrent_calls_each_refresh (n : nat) (s : State) (t : Tokens) :
  tokens s = Some t -> needsRefresh t (clock s) = true ->
  refreshes (snd (launch n getValidToken s)) = (refreshes s + n)%nat
  /\ length (fst (launch n getValidToken s)) = n
  /\ Forall awaitsRefresh (fst (launch n getValidToken s))
  /\ forall ds,
       refreshes (snd (settle (rev (fst (launch n getValidToken s))) ds
                         (snd (launch n getValidToken s))))
       = (refreshes s + n)%nat.
Proof.
  intros Ht Hn. destruct (launch_expired n s t Ht Hn) as (_ & _ & Hr & Hlen & Hall).
  split; [exact Hr|]. split; [exact Hlen|]. split; [exact Hall|].
  intros ds. rewrite settle_refreshes; [exact Hr|].
  apply Forall_rev. exact Hall.
Qed.

Lemma concurrent_calls_each_refresh_witness :
  refreshes (snd (launch 3 getValidToken (holding (Some "old") (Num 100000) 90000)))
  = (refreshes (holding (Some "old") (Num 100000) 90000) + 3)%nat.
Proof.
  exact (proj1 (concurrent_calls_each_refresh 3
                  (holding (Some "old") (Num 100000) 90000)
                  {| access_token := Some "old"; refresh_token := Some "refresh-1";
                     expiry := Num 100000 |} eq_refl eq_refl)).
Defined.

(** C4 fails as stated: two calls made together on an expired token put
    two token requests on the wire, not one. *)
Lemma single_flight_counterexample :
  refreshes (snd (launch 2 getValidToken (holding (Some "old") (Num 100000) 90000)))
  <> S (refreshes (holding (Some "old") (Num 100000) 90000)).
Proof. vm_compute. discriminate. Qed.

(** ** What the grant client leaves alone *)

Lemma sameSlots_refl s : sameSlots s s.
Proof. repeat split. Qed.

Lemma keeps_bindStep {A B} s0 (x : Step A) (f : A -> Async B) :
  keeps s0 x ->
  (forall a s, sameSlots s0 s -> keeps s0 (f a s)) ->
  keeps s0 (bindStep x f).
Proof.
  intros Hx Hf. induction Hx as [s r Hs|s req k Hs _ IH]; simpl.
  - destruct r as [e|a]; [constructor; exact Hs|apply Hf; exact Hs].
  - constructor; [exact Hs|]. exact IH.
Qed.

Lemma keeps_catchStep {A} s0 (x : Step A) (h : Error -> Async A) :
  keeps s0 x ->
  (forall e s, sameSlots s0 s -> keeps s0 (h e s)) ->
  keeps s0 (catchStep x h).
Proof.
  intros Hx Hh. induction Hx as [s r Hs|s req k Hs _ IH]; simpl.
  - destruct r as [e|a]; [apply Hh; exact Hs|constructor; exact Hs].
  - constructor; [exact Hs|]. exact IH.
Qed.

Lemma Keeps_bind {A B} (m : Async A) (f : A -> Async B) :
  Keeps m -> (forall a, Keeps (f a)) -> Keeps (bind m f).
Proof.
  intros Hm Hf s0 s Hs. apply keeps_bindStep; [apply Hm; exact Hs|].
  intros a s' Hs'. apply Hf. exact Hs'.
Qed.

Lemma Keeps_ret {A} (a : A) : Keeps (ret a).
Proof. intros s0 s Hs. constructor. exact Hs. Qed.

Lemma Keeps_throw {A} (e : Error) : Keeps (@throw A e).
Proof. intros s0 s Hs. constructor. exact Hs. Qed.

Lemma Keeps_gets {A} (f : State -> A) : Keeps (gets f).
Proof. intros s0 s Hs. constructor. exact Hs. Qed.

Lemma Keeps_httpsRequest req : Keeps (httpsRequest req).
Proof.
  intros s0 s Hs. constructor; [exact Hs|].
  intros [res|] s' Hs'; constructor; exact Hs'.
Qed.

Create HintDb frame.
#[local] Hint Resolve Keeps_ret Keeps_throw Keeps_gets Keeps_httpsRequest : frame.

(** Peels one [let*] off the goal and solves the head with the hints. *)
Ltac keeps_bind := apply Keeps_bind; [auto with frame|].

Lemma Keeps_setTokens (f : State -> option Tokens) :
  Keeps (modify (fun s => set_tokens (f s) s)).
Proof. intros s0 s Hs. constructor. exact Hs. Qed.

Lemma Keeps_refreshAccessToken : Keeps refreshAccessToken.
Proof.
  unfold refreshAccessToken. keeps_bind.
  intros [t|]; [|auto with frame].
  keeps_bind. intros c. keeps_bind. intros res.
  destruct (truthy (body_access_token (body res))); [|auto with frame].
  apply (Keeps_setTokens (fun s => Some _)).
Qed.

#[local] Hint Resolve Keeps_refreshAccessToken : frame.

Lemma Keeps_getValidToken : Keeps getValidToken.
Proof.
  unfold getValidToken. keeps_bind.
  intros [t|]; [|auto with frame].
  keeps_bind. intros now.
  apply Keeps_bind; [destruct (needsRefresh t now); auto with frame|].
  intros _. keeps_bind.
  intros [t'|]; auto with frame.
Qed.

#[local] Hint Resolve Keeps_getValidToken : frame.


Lemma keeps_feed {A} s0 (x : Step A) ds : keeps s0 x -> keeps s0 (feed x ds).
Proof.
  revert x. induction ds as [|[t o] ds IH]; intros x Hx; simpl; [exact Hx|].
  apply IH. destruct Hx as [s r Hs|s req k Hs Hk]; simpl.
  - constructor. exact Hs.
  - apply Hk. exact Hs.
Qed.

Lemma keeps_stateOf {A} s0 (x : Step A) : keeps s0 x -> sameSlots s0 (stateOf x).
Proof. intros [s r Hs|s req k Hs _]; exact Hs. Qed.






(** C9 (as the code has it). With a valid cached token, [generateStream]
    returns the [results] of the response body whatever the status, and
    fails only when the request itself is rejected. [POST /api/stream]
    then fails with 'No RTSP URL returned' exactly when those results have
    no non-empty [streamUrls.rtspUrl], and otherwise starts the relay on
    that URL and answers with the extension token and the expiry. *)
Theorem generateStream_ignores_status
    (s : State) (t : Tokens) (deviceId : string) (now : Z) (res : Response) :
  tokens s = Some t -> needsRefresh t (clock s) = false ->
  let s1 := set_clock now
              (issue (executeCommand deviceId (access_token t) GenerateRtspStream) s) in
  feed (generateStream deviceId s) [(now, Resolved res)]
  = Done s1 (inr (body_results (body res)))
  /\ feed (generateStream deviceId s) [(now, Rejected)] = Done s1 (inl RequestError)
  /\ forall slotId,
       feed (apiStream (Some (deviceId, slotId)) s) [(now, Resolved res)]
       = match rtspUrlOf (body_results (body res)) with
         | Some u =>
             if truthy (Some u)
             then Done (startHls slotId u s1)
                    (inr (Reply200Stream ("/hls/" ++ slotId ++ "/index.m3u8")
                            (body_results (body res) ≫= streamExtensionToken)
                            (body_results (body res) ≫= expiresAt)))
             else Done s1 (inr (Reply500 NoRtspUrl))
         | None => Done s1 (inr (Reply500 NoRtspUrl))
         end.
Proof.
  intros Ht Hn s1. split; [|split].
  - unfold generateStream, bind. rewrite (getValidToken_cached s t Ht Hn). reflexivity.
  - unfold generateStream, bind. rewrite (getValidToken_cached s t Ht Hn). reflexivity.
  - intros slotId. unfold apiStream, tryCatch, generateStream, bind.
    rewrite (getValidToken_cached s t Ht Hn). simpl.
    destruct (rtspUrlOf (body_results (body res))) as [u|]; [|reflexivity].
    unfold truthy. destruct (negb (String.eqb u "")); reflexivity.
Qed.

Lemma generateStream_ignores_status_witness :
  feed (generateStream "device-1" (holding (Some "tok") (Num 100000) 1000))
    [(2000%Z, Resolved {| status := 200;
                          body := grantBody (Some (grant (Some "rtsp://cam/live")
                                                     (Some "ext-1") (Some "2026-11-03"))) |})]
  = Done (set_clock 2000
            (issue (executeCommand "device-1" (Some "tok") GenerateRtspStream)
               (holding (Some "tok") (Num 100000) 1000)))
      (inr (Some (grant (Some "rtsp://cam/live") (Some "ext-1") (Some "2026-11-03")))).
Proof.
  exact (proj1 (generateStream_ignores_status
                  (holding (Some "tok") (Num 100000) 1000)
                  {| access_token := Some "tok"; refresh_token := Some "refresh-1";
                     expiry := Num 100000 |}
                  "device-1" 2000
                  {| status := 200;
                     body := grantBody (Some (grant (Some "rtsp://cam/live")
                                                (Some "ext-1") (Some "2026-11-03"))) |}
                  eq_refl eq_refl)).
Defined.

(** C9 fails as stated: a response with a non-success status does not make
    the grant request fail. When it carries results they are returned and
    the relay is started; when it carries none, [generateStream] still
    returns, and the handler reports the missing URL. *)
Lemma requestGrant_counterexample :
  (exists s',
     feed (generateStream "device-1" (holding (Some "tok") (Num 100000) 1000))
       [(2000%Z, Resolved {| status := 500;
                             body := grantBody (Some (grant (Some "rtsp://cam/live")
                                                        (Some "ext-1") (Some "2026-11-03"))) |})]
     = Done s' (inr (Some (grant (Some "rtsp://cam/live") (Some "ext-1") (Some "2026-11-03")))))
  /\ (exists s',
       feed (apiStream (Some ("device-1", "0")) (holding (Some "tok") (Num 100000) 1000))
         [(2000%Z, Resolved {| status := 500;
                               body := grantBody (Some (grant (Some "rtsp://cam/live")
                                                          (Some "ext-1") (Some "2026-11-03"))) |})]
       = Done s' (inr (Reply200Stream "/hls/0/index.m3u8" (Some "ext-1") (Some "2026-11-03")))
       /\ registered s' "0" 0)
  /\ (exists s',
       feed (generateStream "device-1" (holding (Some "tok") (Num 100000) 1000))
         [(2000%Z, Resolved {| status := 403; body := grantBody None |})]
       = Done s' (inr None))
  /\ (exists s',
       feed (apiStream (Some ("device-1", "0")) (holding (Some "tok") (Num 100000) 1000))
         [(2000%Z, Resolved {| status := 403; body := grantBody None |})]
       = Done s' (inr (Reply500 NoRtspUrl))).
Proof.
  split; [eexists; reflexivity|]. split; [|split; eexists; reflexivity].
  eexists. split; [reflexivity|].
  eexists. split; [vm_compute; reflexivity|reflexivity].
Qed.

(** ** A complete run *)

(** Start slot ["0"], stop it, stop it again: the child is registered,
    then killed and unregistered, and the second stop changes nothing. *)
Example start_stop_stop :
  let s0 := boot exampleConfig "/tmp" None 1000 in
  let s1 := startHls "0" "rtsp://cam/live" s0 in
  hlsStreams s1 !! "0"
  = Some {| process := 0; dir := "/tmp/hls_0"; slot_rtspUrl := "rtsp://cam/live";
            startedAt := 1000 |}
  /\ fs s1 !! "/tmp/hls_0" = Some ∅
  /\ children (stopHls "0" s1)
     = [markKilled (newChild "0" (ffmpegArgs "/tmp/hls_0" "rtsp://cam/live"))]
  /\ hlsStreams (stopHls "0" s1) !! "0" = None
  /\ console (stopHls "0" (stopHls "0" s1)) = [LogStarting "0"; LogStopped "0"].
Proof. vm_compute. repeat split. Qed.

(** * Further properties *)

(** ** The table and the live children *)








(** ** Slots do not disturb each other *)



(** ** What [startHls] does to the file system *)

Lemma unlinkEach_only_files names (m : gmap string Kind) f :
  (unlinkEach names m !! f = None \/ unlinkEach names m !! f = m !! f)
  /\ (m !! f <> Some RegularFile -> unlinkEach names m !! f = m !! f).
Proof.
  revert m. induction names as [|g names IH]; intros m; simpl; [auto|].
  destruct (m !! g) as [[|]|] eqn:Hg; auto.
  destruct (IH (delete g m)) as [Hsub Hdir].
  destruct (decide (f = g)) as [->|Hne].
  - rewrite lookup_delete_eq in *. split; [left; destruct Hsub; congruence|].
    intros Hn. congruence.
  - rewrite lookup_delete_ne in * by congruence. auto.
Qed.

Lemma startHls_fs A url s :
  fs (startHls A url s)
  = fs (clearDir (getHlsDir A s)
          (if existsSync (getHlsDir A s) s then s else mkdirSync (getHlsDir A s) s)).
Proof.
  destruct (startHls_unfold A url s) as (s4 & -> & _ & _ & Hfs). simpl. rewrite Hfs.
  destruct (stopHls_frame A s) as (Hfs1 & _).
  unfold existsSync, clearDir, mkdirSync. rewrite Hfs1.
  destruct (bool_decide _); simpl; rewrite ?Hfs1.
  - destruct (fs s !! getHlsDir A s); simpl; [reflexivity|exact Hfs1].
  - rewrite !lookup_insert_eq. reflexivity.
Qed.

(** The map [fs] after [startHls]: one key is written, the path of the
    slot's staging directory. *)
Lemma startHls_fs_cases (s : State) (A url : string) :
  (forall d, d <> getHlsDir A s -> fs (startHls A url s) !! d = fs s !! d)
  /\ (forall m, fs s !! getHlsDir A s = Some m ->
       exists m', fs (startHls A url s) !! getHlsDir A s = Some m'
                  /\ m' ⊆ m
                  /\ forall f k, m !! f = Some k -> k <> RegularFile -> m' !! f = Some k)
  /\ (fs s !! getHlsDir A s = None -> fs (startHls A url s) !! getHlsDir A s = Some ∅).
Proof.
  rewrite startHls_fs. unfold existsSync, clearDir, mkdirSync.
  split; [|split].
  - intros d Hd. destruct (fs s !! getHlsDir A s) as [m|] eqn:Hm.
    + rewrite bool_decide_eq_true_2 by eauto. rewrite Hm. simpl.
      apply lookup_insert_ne. congruence.
    + rewrite bool_decide_eq_false_2 by (intros [? ?]; discriminate). simpl.
      rewrite lookup_insert_eq. simpl.
      rewrite lookup_insert_ne by congruence. apply lookup_insert_ne. congruence.
  - intros m Hm. rewrite bool_decide_eq_true_2 by eauto. rewrite Hm. simpl.
    rewrite lookup_insert_eq. eexists. split; [reflexivity|]. split.
    + apply map_subseteq_spec. intros f k Hk.
      destruct (unlinkEach_only_files (readdir m) m f) as [[Hn|He] _]; congruence.
    + intros f k Hk Hnf.
      destruct (unlinkEach_only_files (readdir m) m f) as [_ Hd].
      rewrite Hd; [exact Hk|]. congruence.
  - intros Hm. rewrite Hm. rewrite bool_decide_eq_false_2 by (intros [? ?]; discriminate).
    simpl. rewrite lookup_insert_eq. simpl. rewrite lookup_insert_eq. reflexivity.
Qed.

(** ** Children over time *)

Lemma ages_refl c : ages c c.
Proof. repeat split; auto. Qed.

Lemma grows_refl l : grows l l.
Proof. intros p c Hc. exists c. split; [exact Hc|apply ages_refl]. Qed.

Lemma grows_trans l1 l2 l3 : grows l1 l2 -> grows l2 l3 -> grows l1 l3.
Proof.
  intros H12 H23 p c Hc.
  destruct (H12 p c Hc) as (c2 & Hc2 & Hs2 & Ha2 & Hk2 & Hx2).
  destruct (H23 p c2 Hc2) as (c3 & Hc3 & Hs3 & Ha3 & Hk3 & Hx3).
  exists c3. split; [exact Hc3|]. unfold ages.
  split; [congruence|]. split; [congruence|]. split; auto.
Qed.

Lemma grows_alter (f : Child -> Child) l q :
  (forall c, ages c (f c)) -> grows l (alter f q l).
Proof.
  intros Hf p c Hc. destruct (decide (q = p)) as [->|Hne].
  - exists (f c). rewrite list_lookup_alter_eq, Hc. split; [reflexivity|apply Hf].
  - exists c. rewrite list_lookup_alter_ne by exact Hne. split; [exact Hc|apply ages_refl].
Qed.

Lemma grows_app l l' : grows l (l ++ l').
Proof.
  intros p c Hc. exists c. split; [|apply ages_refl].
  rewrite lookup_app_l; [exact Hc|]. apply lookup_lt_Some in Hc. exact Hc.
Qed.

Lemma ages_markKilled c : ages c (markKilled c).
Proof. repeat split; auto. Qed.

Lemma ages_markExited c : ages c (markExited c).
Proof. repeat split; auto. Qed.

Lemma grows_stopHls A s : grows (children s) (children (stopHls A s)).
Proof.
  rewrite stopHls_children. destruct (hlsStreams s !! A); [|apply grows_refl].
  apply grows_alter, ages_markKilled.
Qed.

Lemma grows_step s s' : step s s' -> grows (children s) (children s').
Proof.
  intros Hstep. destruct Hstep as [A u s|A s|s|p c code s Hc Hx|s s' Hh Hc].
  - rewrite startHls_children.
    eapply grows_trans; [apply grows_stopHls|apply grows_app].
  - apply grows_stopHls.
  - unfold stopAllHls. generalize (elements (dom (hlsStreams s))). intros ks.
    revert s. induction ks as [|k ks IH]; intros s; simpl; [apply grows_refl|].
    eapply grows_trans; [apply grows_stopHls|apply IH].
  - rewrite childExit_children. apply grows_alter, ages_markExited.
  - rewrite Hc. apply grows_refl.
Qed.

(** X6. Along any run of the server a child handle keeps denoting the
    same child: it stays in the list of children with the slot and the
    command line it was spawned with, and a child that was killed or has
    exited is never shown as running again. *)
Theorem children_only_age (s s' : State) (p : nat) (c : Child) :
  rtc step s s' -> children s !! p = Some c ->
  exists c', children s' !! p = Some c'
             /\ child_slot c' = child_slot c /\ child_args c' = child_args c
             /\ (child_killed c = true -> child_killed c' = true)
             /\ (child_exited c = true -> child_exited c' = true).
Proof.
  intros Hsteps. revert c.
  induction Hsteps as [s|s s1 s' Hst _ IH]; intros c Hc.
  - exists c. split; [exact Hc|apply ages_refl].
  - destruct (grows_step s s1 Hst p c Hc) as (c1 & Hc1 & Hs1 & Ha1 & Hk1 & Hx1).
    destruct (IH c1 Hc1) as (c' & Hc' & Hs' & Ha' & Hk' & Hx').
    exists c'. split; [exact Hc'|].
    split; [congruence|]. split; [congruence|]. split; auto.
Qed.

Lemma children_only_age_witness :
  exists c',
    children (startHls "0" "rtsp://cam/b"
                (startHls "0" "rtsp://cam/a" (boot exampleConfig "/tmp" None 1000))) !! 0
    = Some c'
    /\ child_slot c' = "0"
    /\ child_args c' = ffmpegArgs "/tmp/hls_0" "rtsp://cam/a"
    /\ (false = true -> child_killed c' = true)
    /\ (false = true -> child_exited c' = true).
Proof.
  exact (children_only_age
           (startHls "0" "rtsp://cam/a" (boot exampleConfig "/tmp" None 1000))
           (startHls "0" "rtsp://cam/b"
              (startHls "0" "rtsp://cam/a" (boot exampleConfig "/tmp" None 1000)))
           0 (newChild "0" (ffmpegArgs "/tmp/hls_0" "rtsp://cam/a"))
           (rtc_once _ _ (step_start "0" "rtsp://cam/b" _)) eq_refl).
Defined.

(** ** The token store over several calls *)

Lemma truthy_nonempty a : a <> "" -> truthy (Some a) = true.
Proof. intros Ha. simpl. apply negb_true_iff, String.eqb_neq, Ha. Qed.

Lemma refresh_success_state s t now res :
  tokens s = Some t -> truthy (body_access_token (body res)) = true ->
  feed (refreshAccessToken s) [(now, Resolved res)]
  = Done (set_tokens
            (Some {| access_token := body_access_token (body res);
                     refresh_token := refresh_token t;
                     expiry := num_add (Num now)
                                 (num_mul (toNumber (body_expires_in (body res)))
                                    (Num 1000)) |})
            (set_clock now (issue (tokenRequest (config s) (refresh_token t)) s)))
      (inr tt).
Proof.
  intros Ht Htr. destruct (refreshAccessToken_blocks s t Ht) as (k & Hk & Hcont).
  rewrite Hk. simpl. rewrite Hcont. simpl. rewrite Htr.
  unfold refreshed. simpl. rewrite Ht. reflexivity.
Qed.

(** X7. Without a usable [REFRESH_TOKEN] in the environment the server is
    unauthenticated: [getValidToken] and the stream and extend handlers
    fail with 'Not authenticated', the handlers answer 500, and nothing is
    sent to the token endpoint or the device API. *)
Theorem unauthenticated_sends_nothing
    (c : Config) (tmp : string) (rt : option string) (now : Z) :
  truthy rt = false ->
  getValidToken (boot c tmp rt now) = Done (boot c tmp rt now) (inl NotAuthenticated)
  /\ (forall deviceId slotId,
        apiStream (Some (deviceId, slotId)) (boot c tmp rt now)
        = Done (boot c tmp rt now) (inr (Reply500 NotAuthenticated)))
  /\ (forall deviceId ext,
        apiExtend (Some (deviceId, ext)) (boot c tmp rt now)
        = Done (boot c tmp rt now) (inr (Reply500 NotAuthenticated))).
Proof.
  intros Hrt.
  assert (Ht : tokens (boot c tmp rt now) = None).
  { simpl. unfold initTokens. rewrite Hrt. reflexivity. }
  pose proof (getValidToken_unauthenticated _ Ht) as Hg.
  split; [exact Hg|]. split.
  - intros deviceId slotId. unfold apiStream, tryCatch, generateStream, bind.
    rewrite Hg. reflexivity.
  - intros deviceId ext. unfold apiExtend, tryCatch, extendStream, bind.
    rewrite Hg. reflexivity.
Qed.

Lemma unauthenticated_sends_nothing_witness :
  getValidToken (boot exampleConfig "/tmp" (Some "") 1000)
  = Done (boot exampleConfig "/tmp" (Some "") 1000) (inl NotAuthenticated).
Proof.
  exact (proj1 (unauthenticated_sends_nothing exampleConfig "/tmp" (Some "") 1000 eq_refl)).
Defined.

(** X8. Booted from a [REFRESH_TOKEN], the store holds no access token and
    expiry 0, so the first [getValidToken] refreshes whatever the clock
    says: it sends one request to the token endpoint, carrying the
    refresh token of the environment, and waits for it. *)
Theorem first_use_refreshes (c : Config) (tmp rt : string) (now : Z) :
  rt <> "" ->
  exists k,
    getValidToken (boot c tmp (Some rt) now)
    = Blocked (issue (tokenRequest c (Some rt)) (boot c tmp (Some rt) now))
        (tokenRequest c (Some rt)) k
    /\ payload (tokenRequest c (Some rt))
       = RefreshForm (clientId c) (clientSecret c) (Some rt)
    /\ forall o s', k o s' = validTokenCont o s'.
Proof.
  intros Hrt.
  assert (Ht : tokens (boot c tmp (Some rt) now)
               = Some {| access_token := None; refresh_token := Some rt; expiry := Num 0 |}).
  { simpl. unfold initTokens. rewrite (truthy_nonempty rt Hrt). reflexivity. }
  destruct (getValidToken_blocks _ _ Ht eq_refl) as (k & Hk & Hcont).
  exists k. split; [exact Hk|]. split; [reflexivity|exact Hcont].
Qed.

Lemma first_use_refreshes_witness :
  exists k,
    getValidToken (boot exampleConfig "/tmp" (Some "refresh-1") (-5))
    = Blocked (issue (tokenRequest exampleConfig (Some "refresh-1"))
                 (boot exampleConfig "/tmp" (Some "refresh-1") (-5)))
        (tokenRequest exampleConfig (Some "refresh-1")) k
    /\ payload (tokenRequest exampleConfig (Some "refresh-1"))
       = RefreshForm (Some "client") (Some "secret") (Some "refresh-1")
    /\ forall o s', k o s' = validTokenCont o s'.
Proof.
  apply (first_use_refreshes exampleConfig "/tmp" "refresh-1" (-5)). discriminate.
Defined.

(** X9. A token obtained by a refresh at time [now] with [expires_in = n]
    seconds is served from the store, without any request, at every later
    time up to [now + 1000 n - 60000] ms; after that the next call issues
    a new refresh. *)
Theorem refreshed_token_is_cached
    (s : State) (t : Tokens) (now : Z) (res : Response) (a : string) (n later : Z) :
  tokens s = Some t ->
  body_access_token (body res) = Some a -> a <> "" ->
  body_expires_in (body res) = Some n ->
  let s' := stateOf (feed (refreshAccessToken s) [(now, Resolved res)]) in
  ((later <= now + n * 1000 - 60000)%Z ->
     getValidToken (set_clock later s') = Done (set_clock later s') (inr (Some a)))
  /\ ((now + n * 1000 - 60000 < later)%Z ->
      refreshes (stateOf (getValidToken (set_clock later s'))) = S (refreshes s')).
Proof.
  intros Ht Ha Hne Hn s'.
  assert (Htr : truthy (body_access_token (body res)) = true)
    by (rewrite Ha; apply truthy_nonempty, Hne).
  assert (Hs' : tokens (set_clock later s')
                = Some {| access_token := Some a; refresh_token := refresh_token t;
                          expiry := Num (now + n * 1000) |}).
  { unfold s'. rewrite (refresh_success_state s t now res Ht Htr). simpl.
    rewrite Ha, Hn. reflexivity. }
  split; intros Hl.
  - apply (getValidToken_cached _ _ Hs').
    apply needsRefresh_num. split; [apply truthy_nonempty, Hne|simpl; lia].
  - assert (Hnr : needsRefresh {| access_token := Some a; refresh_token := refresh_token t;
                                   expiry := Num (now + n * 1000) |}
                    (clock (set_clock later s')) = true).
    { unfold needsRefresh. simpl. apply orb_true_iff. right. apply Z.ltb_lt. lia. }
    destruct (getValidToken_blocks _ _ Hs' Hnr) as (k & Hk & _).
    rewrite Hk. simpl. rewrite refreshes_issue. simpl.
    change (refreshes (set_clock later s')) with (refreshes s'). lia.
Qed.

Lemma refreshed_token_is_cached_witness :
  getValidToken
    (set_clock 3546000
       (stateOf (feed (refreshAccessToken (holding None (Num 0) 5000))
                   [(6000%Z, Resolved {| status := 200;
                                         body := tokenBody (Some "fresh") (Some 3600%Z) None |})])))
  = Done
      (set_clock 3546000
         (stateOf (feed (refreshAccessToken (holding None (Num 0) 5000))
                     [(6000%Z, Resolved {| status := 200;
                                           body := tokenBody (Some "fresh") (Some 3600%Z) None |})])))
      (inr (Some "fresh")).
Proof.
  refine (proj1 (refreshed_token_is_cached (holding None (Num 0) 5000)
                   {| access_token := None; refresh_token := Some "refresh-1";
                      expiry := Num 0 |}
                   6000 {| status := 200; body := tokenBody (Some "fresh") (Some 3600%Z) None |}
                   "fresh" 3600 3546000 eq_refl eq_refl _ eq_refl) _).
  - discriminate.
  - vm_compute. discriminate.
Defined.

(** X10. When the token endpoint answers with an access token and a body
    that has no [expires_in] field at all, the stored expiry is [NaN];
    [getValidToken] then returns that token without a request at every
    later time, however late: the token is never refreshed again. *)
Theorem token_without_expiry_never_refreshed
    (s : State) (t : Tokens) (now : Z) (res : Response) (a : string) (later : Z) :
  tokens s = Some t ->
  body_access_token (body res) = Some a -> a <> "" ->
  body_expires_in (body res) = None ->
  let s' := stateOf (feed (refreshAccessToken s) [(now, Resolved res)]) in
  (tokens s' ≫= fun t' => Some (expiry t')) = Some NaN
  /\ getValidToken (set_clock later s') = Done (set_clock later s') (inr (Some a)).
Proof.
  intros Ht Ha Hne Hn s'.
  assert (Htr : truthy (body_access_token (body res)) = true)
    by (rewrite Ha; apply truthy_nonempty, Hne).
  assert (Hs' : tokens s'
                = Some {| access_token := Some a; refresh_token := refresh_token t;
                          expiry := NaN |}).
  { unfold s'. rewrite (refresh_success_state s t now res Ht Htr). simpl.
    rewrite Ha, Hn. reflexivity. }
  split; [rewrite Hs'; reflexivity|].
  apply (getValidToken_cached (set_clock later s') _ Hs').
  unfold needsRefresh. simpl.
  rewrite (proj2 (negb_true_iff _) (proj2 (String.eqb_neq a "") Hne)). reflexivity.
Qed.

Lemma token_without_expiry_never_refreshed_witness :
  getValidToken
    (set_clock 999999999999
       (stateOf (feed (refreshAccessToken (holding None (Num 0) 5000))
                   [(6000%Z, Resolved {| status := 200;
                                         body := tokenBody (Some "fresh") None None |})])))
  = Done
      (set_clock 999999999999
         (stateOf (feed (refreshAccessToken (holding None (Num 0) 5000))
                     [(6000%Z, Resolved {| status := 200;
                                           body := tokenBody (Some "fresh") None None |})])))
      (inr (Some "fresh")).
Proof.
  refine (proj2 (token_without_expiry_never_refreshed (holding None (Num 0) 5000)
                   {| access_token := None; refresh_token := Some "refresh-1";
                      expiry := Num 0 |}
                   6000 {| status := 200; body := tokenBody (Some "fresh") None None |}
                   "fresh" 999999999999 eq_refl eq_refl _ eq_refl)).
  discriminate.
Defined.

Lemma refresh_once s t d :
  tokens s = Some t ->
  exists t',
    tokens (stateOf (feed (refreshAccessToken s) [d])) = Some t'
    /\ refresh_token t' = refresh_token t
    /\ config (stateOf (feed (refreshAccessToken s) [d])) = config s
    /\ sent (stateOf (feed (refreshAccessToken s) [d]))
       = (sent s ++ [tokenRequest (config s) (refresh_token t)])%list.
Proof.
  intros Ht. destruct d as [now o].
  destruct (refreshAccessToken_blocks s t Ht) as (k & Hk & Hcont).
  rewrite Hk. simpl. rewrite Hcont.
  destruct o as [res|]; simpl.
  - destruct (truthy (body_access_token (body res))); simpl.
    + rewrite Ht. eexists. split; [reflexivity|]. auto.
    + exists t. auto.
  - exists t. auto.
Qed.

(** X11. However many times the access token is refreshed, and whether
    the refreshes succeed or fail, the store keeps the refresh token it
    started with, and every request to the token endpoint carries that
    same refresh token. *)
Theorem refresh_token_is_kept (ds : list (Z * Outcome)) (s : State) (t : Tokens) :
  tokens s = Some t ->
  (exists t', tokens (refreshAll ds s) = Some t' /\ refresh_token t' = refresh_token t)
  /\ sent (refreshAll ds s)
     = (sent s ++ replicate (length ds) (tokenRequest (config s) (refresh_token t)))%list.
Proof.
  revert s t. induction ds as [|d ds IH]; intros s t Ht; cbn [refreshAll length replicate].
  - split; [exists t; auto|]. rewrite app_nil_r. reflexivity.
  - destruct (refresh_once s t d Ht) as (t1 & Ht1 & Hrt & Hcfg & Hsent).
    destruct (IH _ t1 Ht1) as ((t' & Ht' & Hrt') & Hsent').
    split; [exists t'; split; [exact Ht'|congruence]|].
    rewrite Hsent', Hsent, Hcfg, Hrt, <- app_assoc. reflexivity.
Qed.

Lemma refresh_token_is_kept_witness :
  sent (refreshAll
          [(6000%Z, Resolved {| status := 200;
                                body := tokenBody (Some "a1") (Some 10%Z) (Some "rotated") |});
           (20000%Z, Rejected)]
          (holding None (Num 0) 5000))
  = [tokenRequest exampleConfig (Some "refresh-1");
     tokenRequest exampleConfig (Some "refresh-1")].
Proof.
  exact (proj2 (refresh_token_is_kept
                  [(6000%Z, Resolved {| status := 200;
                                        body := tokenBody (Some "a1") (Some 10%Z)
                                                  (Some "rotated") |});
                   (20000%Z, Rejected)]
                  (holding None (Num 0) 5000)
                  {| access_token := None; refresh_token := Some "refresh-1";
                     expiry := Num 0 |} eq_refl)).
Defined.

(** X12. Two calls of [getValidToken] made together on an expired token
    race: when both refreshes succeed, each caller gets the token of its
    own response, and the store ends with the token of the response that
    was answered last, so the first caller holds a token the store no
    longer has. *)
Theorem concurrent_refreshes_last_wins
    (s : State) (t : Tokens) (res1 res2 : Response) (t1 t2 : Z) :
  tokens s = Some t -> needsRefresh t (clock s) = true ->
  truthy (body_access_token (body res1)) = true ->
  truthy (body_access_token (body res2)) = true ->
  exists s',
    settle (rev (fst (launch 2 getValidToken s)))
      [(t1, Resolved res1); (t2, Resolved res2)] (snd (launch 2 getValidToken s))
    = ([Some (inr (body_access_token (body res1)));
        Some (inr (body_access_token (body res2)))], s')
    /\ (tokens s' ≫= access_token) = body_access_token (body res2).
Proof.
  intros Ht Hn H1 H2. simpl.
  destruct (getValidToken_blocks s t Ht Hn) as (k1 & Hk1 & Hc1).
  rewrite Hk1. simpl.
  set (sa := issue (tokenRequest (config s) (refresh_token t)) s).
  destruct (getValidToken_blocks sa t Ht Hn) as (k2 & Hk2 & Hc2).
  rewrite Hk2. simpl. rewrite Hc1, Hc2. simpl. rewrite H1. simpl. rewrite H2. simpl.
  eexists. split; [reflexivity|]. reflexivity.
Qed.

Lemma concurrent_refreshes_last_wins_witness :
  exists s',
    settle (rev (fst (launch 2 getValidToken (holding (Some "old") (Num 100000) 90000))))
      [(91000%Z, Resolved {| status := 200; body := tokenBody (Some "a1") (Some 3600%Z) None |});
       (92000%Z, Resolved {| status := 200; body := tokenBody (Some "a2") (Some 3600%Z) None |})]
      (snd (launch 2 getValidToken (holding (Some "old") (Num 100000) 90000)))
    = ([Some (inr (Some "a1")); Some (inr (Some "a2"))], s')
    /\ (tokens s' ≫= access_token) = Some "a2".
Proof.
  exact (concurrent_refreshes_last_wins (holding (Some "old") (Num 100000) 90000)
           {| access_token := Some "old"; refresh_token := Some "refresh-1";
              expiry := Num 100000 |}
           {| status := 200; body := tokenBody (Some "a1") (Some 3600%Z) None |}
           {| status := 200; body := tokenBody (Some "a2") (Some 3600%Z) None |}
           91000 92000 eq_refl eq_refl eq_refl eq_refl).
Defined.

(** ** The stream request from token to relay *)

(** X13. When [POST /api/stream] has to refresh the token and the refresh
    fails, the handler answers 500 with the refresh error and stops
    there: the only request sent is the one to the token endpoint, the
    device API is not contacted, and no slot is touched. *)
Theorem failed_refresh_stops_stream
    (s : State) (t : Tokens) (deviceId slotId : string) (now : Z) (res : Response)
    (ds : list (Z * Outcome)) :
  tokens s = Some t -> needsRefresh t (clock s) = true ->
  truthy (body_access_token (body res)) = false ->
  exists s',
    feed (apiStream (Some (deviceId, slotId)) s) ((now, Resolved res) :: ds)
    = Done s' (inr (Reply500 (TokenRefreshFailed (body res))))
    /\ sent s' = (sent s ++ [tokenRequest (config s) (refresh_token t)])%list
    /\ hlsStreams s' = hlsStreams s /\ children s' = children s /\ tokens s' = tokens s.
Proof.
  intros Ht Hn Hf. destruct (getValidToken_blocks s t Ht Hn) as (k & Hk & Hcont).
  unfold apiStream, tryCatch, generateStream, bind. rewrite Hk. simpl.
  rewrite Hcont. simpl. rewrite Hf. simpl. unfold ret. rewrite feed_Done.
  eexists. split; [reflexivity|]. simpl. auto.
Qed.

Lemma failed_refresh_stops_stream_witness :
  exists s',
    feed (apiStream (Some ("device-1", "0")) (holding None (Num 0) 5000))
      [(6000%Z, Resolved {| status := 401; body := tokenBody None None None |})]
    = Done s' (inr (Reply500 (TokenRefreshFailed (tokenBody None None None))))
    /\ sent s' = [tokenRequest exampleConfig (Some "refresh-1")]
    /\ hlsStreams s' = ∅ /\ children s' = []
    /\ tokens s' = tokens (holding None (Num 0) 5000).
Proof.
  exact (failed_refresh_stops_stream (holding None (Num 0) 5000)
           {| access_token := None; refresh_token := Some "refresh-1"; expiry := Num 0 |}
           "device-1" "0" 6000
           {| status := 401; body := tokenBody None None None |} [] eq_refl eq_refl eq_refl).
Defined.

(** X14. A stream request that finds the token expired sends exactly two
    requests, in order: the refresh to the token endpoint, then the
    command to the device API, authorised with the access token the
    refresh just returned. When the device answers with an RTSP URL the
    slot is then registered on that URL with a newly spawned child. *)
Theorem cold_stream_request
    (s : State) (t : Tokens) (deviceId slotId : string)
    (t1 t2 : Z) (tokRes devRes : Response) (a url : string) :
  tokens s = Some t -> needsRefresh t (clock s) = true ->
  body_access_token (body tokRes) = Some a -> a <> "" ->
  rtspUrlOf (body_results (body devRes)) = Some url -> url <> "" ->
  exists s',
    feed (apiStream (Some (deviceId, slotId)) s)
      [(t1, Resolved tokRes); (t2, Resolved devRes)]
    = Done s' (inr (Reply200Stream ("/hls/" ++ slotId ++ "/index.m3u8")
                      (body_results (body devRes) ≫= streamExtensionToken)
                      (body_results (body devRes) ≫= expiresAt)))
    /\ sent s'
       = (sent s ++ [tokenRequest (config s) (refresh_token t);
                     executeCommand deviceId (Some a) GenerateRtspStream])%list
    /\ authorization (executeCommand deviceId (Some a) GenerateRtspStream)
       = Some ("Bearer " ++ a)
    /\ hlsStreams s' !! slotId
       = Some {| process := length (children s); dir := getHlsDir slotId s;
                 slot_rtspUrl := url; startedAt := t2 |}
    /\ children s' !! length (children s)
       = Some (newChild slotId (ffmpegArgs (getHlsDir slotId s) url)).
Proof.
  intros Ht Hn Ha Hne Hu Hue.
  destruct (getValidToken_blocks s t Ht Hn) as (k & Hk & Hcont).
  unfold apiStream, tryCatch, generateStream, bind. rewrite Hk. simpl.
  rewrite Hcont. simpl. rewrite Ha, (truthy_nonempty a Hne). simpl.
  rewrite Hu. cbv beta iota.
  pose proof (truthy_nonempty url Hue) as Hb. simpl in Hb. rewrite Hb. simpl.
  eexists. split; [reflexivity|].
  set (s2 := set_clock t2 _).
  destruct (startHls_frame slotId url s2) as (_ & _ & _ & Hsent).
  destruct (startHls_spawns slotId url s2) as [Hc _].
  split; [|split; [reflexivity|split]].
  - rewrite Hsent. unfold s2, issue. simpl. rewrite <- app_assoc. reflexivity.
  - rewrite startHls_hlsStreams, lookup_insert_eq. reflexivity.
  - exact Hc.
Qed.

Lemma cold_stream_request_witness :
  exists s',
    feed (apiStream (Some ("device-1", "0")) (holding None (Num 0) 5000))
      [(6000%Z, Resolved {| status := 200; body := tokenBody (Some "fresh") (Some 3600%Z) None |});
       (7000%Z, Resolved {| status := 200;
                            body := grantBody (Some (grant (Some "rtsp://cam/live")
                                                       (Some "ext-1") (Some "2026-11-03"))) |})]
    = Done s' (inr (Reply200Stream "/hls/0/index.m3u8" (Some "ext-1") (Some "2026-11-03")))
    /\ sent s'
       = [tokenRequest exampleConfig (Some "refresh-1");
          executeCommand "device-1" (Some "fresh") GenerateRtspStream]
    /\ authorization (executeCommand "device-1" (Some "fresh") GenerateRtspStream)
       = Some "Bearer fresh"
    /\ hlsStreams s' !! "0"
       = Some {| process := 0; dir := "/tmp/hls_0"; slot_rtspUrl := "rtsp://cam/live";
                 startedAt := 7000 |}
    /\ children s' !! 0%nat
       = Some (newChild "0" (ffmpegArgs "/tmp/hls_0" "rtsp://cam/live")).
Proof.
  refine (cold_stream_request (holding None (Num 0) 5000)
            {| access_token := None; refresh_token := Some "refresh-1"; expiry := Num 0 |}
            "device-1" "0" 6000 7000
            {| status := 200; body := tokenBody (Some "fresh") (Some 3600%Z) None |}
            {| status := 200;
               body := grantBody (Some (grant (Some "rtsp://cam/live")
                                          (Some "ext-1") (Some "2026-11-03"))) |}
            "fresh" "rtsp://cam/live" eq_refl eq_refl eq_refl _ eq_refl _); discriminate.
Defined.

(** ** Extending a grant *)

Lemma Keeps_extendStream deviceId ext : Keeps (extendStream deviceId ext).
Proof.
  unfold extendStream. keeps_bind. intros token.
  keeps_bind. intros res. auto with frame.
Qed.

Lemma Keeps_tryCatch {A} (m : Async A) (h : Error -> Async A) :
  Keeps m -> (forall e, Keeps (h e)) -> Keeps (tryCatch m h).
Proof.
  intros Hm Hh s0 s Hs. apply keeps_catchStep; [apply Hm; exact Hs|].
  intros e s' Hs'. apply Hh. exact Hs'.
Qed.

Lemma Keeps_apiExtend parsed : Keeps (apiExtend parsed).
Proof.
  unfold apiExtend. apply Keeps_tryCatch; [|auto with frame].
  destruct parsed as [[deviceId ext]|]; [|auto with frame].
  apply Keeps_bind; [apply Keeps_extendStream|]. auto with frame.
Qed.

(** ** Serving HLS files *)

Lemma pollLoop_from fuel present i :
  (i <= 40)%nat -> (41 <= fuel + i)%nat ->
  exists j,
    pollLoop fuel present i (200 * Z.of_nat i) = Some (j, (200 * Z.of_nat j)%Z)
    /\ (i <= j <= 40)%nat
    /\ (forall k, (i <= k < j)%nat -> present k = false)
    /\ ((j < 40)%nat -> present j = true).
Proof.
  revert i. induction fuel as [|fuel IH]; intros i Hi Hf; [lia|]. simpl.
  destruct (present i) eqn:Hp; simpl.
  - exists i. split; [reflexivity|]. split; [lia|]. split; [intros k Hk; lia|auto].
  - destruct (200 * Z.of_nat i <? 8000)%Z eqn:Hw.
    + apply Z.ltb_lt in Hw.
      destruct (IH (S i)) as (j & Hj & Hr & Hall & Hlast); [lia|lia|].
      exists j. replace (200 * Z.of_nat i + 200)%Z with (200 * Z.of_nat (S i))%Z by lia.
      split; [exact Hj|]. split; [lia|]. split; [|exact Hlast].
      intros k Hk. destruct (decide (k = i)) as [->|Hne]; [exact Hp|]. apply Hall. lia.
    + apply Z.ltb_ge in Hw. exists i. split; [reflexivity|]. split; [lia|].
      split; [intros k Hk; lia|]. intros Hlt. lia.
Qed.

(** X16. The [/hls/] route waits for the file in steps of 200 ms and for
    at most 8000 ms: the loop ends at the first check that finds the file,
    or at the 41st check, after 40 sleeps; it always ends. The answer is
    then decided by one more check: 200 when it finds the file, 404 'Not
    ready' otherwise. *)
Theorem hls_wait_is_bounded (present : nat -> bool) (fuel : nat) :
  (41 <= fuel)%nat ->
  exists j,
    pollLoop fuel present 0 0 = Some (j, (200 * Z.of_nat j)%Z)
    /\ (j <= 40)%nat /\ (200 * Z.of_nat j <= 8000)%Z
    /\ (forall k, (k < j)%nat -> present k = false)
    /\ ((j < 40)%nat -> present j = true)
    /\ serveHls fuel present
       = Some (if present (S j) then Served200 else NotReady404, (200 * Z.of_nat j)%Z).
Proof.
  intros Hf. destruct (pollLoop_from fuel present 0) as (j & Hj & Hr & Hall & Hlast); [lia|lia|].
  exists j. change (200 * Z.of_nat 0)%Z with 0%Z in Hj.
  split; [exact Hj|]. split; [lia|]. split; [lia|]. split; [intros k Hk; apply Hall; lia|].
  split; [exact Hlast|]. unfold serveHls. rewrite Hj. reflexivity.
Qed.

Lemma hls_wait_is_bounded_witness :
  exists j,
    pollLoop 41 (fun k => Nat.leb 3 k) 0 0 = Some (j, (200 * Z.of_nat j)%Z)
    /\ (j <= 40)%nat /\ (200 * Z.of_nat j <= 8000)%Z
    /\ (forall k, (k < j)%nat -> Nat.leb 3 k = false)
    /\ ((j < 40)%nat -> Nat.leb 3 j = true)
    /\ serveHls 41 (fun k => Nat.leb 3 k)
       = Some (if Nat.leb 3 (S j) then Served200 else NotReady404, (200 * Z.of_nat j)%Z).
Proof.
  exact (hls_wait_is_bounded (fun k => Nat.leb 3 k) 41 (le_n 41)).
Defined.

Lemma splitOn_plain a : hasChar slash a = false -> splitOn slash a = [a].
Proof.
  induction a as [|c a IH]; simpl; [reflexivity|].
  intros H. apply orb_false_iff in H as [Hc Ha]. rewrite Hc, (IH Ha). reflexivity.
Qed.

Lemma splitOn_segment a b :
  hasChar slash a = false ->
  splitOn slash (a ++ String slash b) = a :: splitOn slash b.
Proof.
  induction a as [|c a IH]; simpl; [reflexivity|].
  intros H. apply orb_false_iff in H as [Hc Ha]. rewrite Hc, (IH Ha). reflexivity.
Qed.

(** ** The stream handler of [server.js] *)




(** * The slot table as an object *)

(** ** What each operation does to the object *)

Lemma readSlot_own k t e :
  k <> "__proto__" -> hlsStreams (st t) !! k = Some e -> readSlot k t = Entry e.
Proof.
  intros Hk He. unfold readSlot. rewrite decide_False by exact Hk. rewrite He. reflexivity.
Qed.

Lemma readSlot_Entry k t e :
  k <> "__proto__" -> readSlot k t = Entry e -> hlsStreams (st t) !! k = Some e.
Proof.
  intros Hk. unfold readSlot. rewrite decide_False by exact Hk.
  destruct (hlsStreams (st t) !! k) as [e'|]; [congruence|].
  destruct (prototype t) as [ep|]; unfold fromEntry, fromObjectPrototype;
    repeat case_decide; try case_bool_decide; discriminate.
Qed.

Lemma readSlot_proto t :
  readSlot "__proto__" t
  = match prototype t with Some e => Entry e | None => Other true end.
Proof. reflexivity. Qed.

Lemma stopHlsObj_own k t :
  hlsStreams (st (stopHlsObj k t))
  = if decide (k = "__proto__") then hlsStreams (st t) else delete k (hlsStreams (st t)).
Proof.
  unfold stopHlsObj, deleteSlot.
  destruct (decide (k = "__proto__")) as [->|Hk].
  - rewrite readSlot_proto. destruct (prototype t); reflexivity.
  - destruct (readSlot k t) as [|e|[|]] eqn:Hr; try reflexivity.
    + symmetry. apply delete_id. unfold readSlot in Hr. rewrite decide_False in Hr by exact Hk.
      destruct (hlsStreams (st t) !! k); [discriminate|reflexivity].
    + symmetry. apply delete_id. unfold readSlot in Hr. rewrite decide_False in Hr by exact Hk.
      destruct (hlsStreams (st t) !! k); [discriminate|reflexivity].
Qed.

Lemma stopHlsObj_prototype k t : prototype (stopHlsObj k t) = prototype t.
Proof.
  unfold stopHlsObj, deleteSlot.
  destruct (readSlot k t) as [|e|[|]]; destruct (decide (k = "__proto__")); reflexivity.
Qed.

Lemma stopHlsObj_children k t :
  children (st (stopHlsObj k t))
  = match readSlot k t with
    | Entry e => alter markKilled (process e) (children (st t))
    | _ => children (st t)
    end.
Proof.
  unfold stopHlsObj, deleteSlot.
  destruct (readSlot k t) as [|e|[|]]; destruct (decide (k = "__proto__")); reflexivity.
Qed.

Lemma stopHlsObj_length k t :
  length (children (st (stopHlsObj k t))) = length (children (st t)).
Proof.
  rewrite stopHlsObj_children. destruct (readSlot k t); try reflexivity. apply length_alter.
Qed.

Lemma stopHlsObj_frame k t :
  fs (st (stopHlsObj k t)) = fs (st t)
  /\ tmpdir (st (stopHlsObj k t)) = tmpdir (st t)
  /\ clock (st (stopHlsObj k t)) = clock (st t)
  /\ tokens (st (stopHlsObj k t)) = tokens (st t).
Proof.
  unfold stopHlsObj, deleteSlot.
  destruct (readSlot k t) as [|e|[|]]; destruct (decide (k = "__proto__")); simpl; auto.
Qed.

Lemma startHlsObj_eq k url t :
  startHlsObj k url t
  = writeSlot k (newEntry k url t)
      {| st := spawned k url t; prototype := prototype t |}.
Proof.
  destruct (stopHlsObj_frame k t) as (Hfs & Htmp & Hclock & _).
  assert (Hdir : getHlsDir k (st (stopHlsObj k t)) = getHlsDir k (st t)).
  { unfold getHlsDir. rewrite Htmp. reflexivity. }
  assert (Hex : existsSync (getHlsDir k (st t)) (st (stopHlsObj k t))
                = existsSync (getHlsDir k (st t)) (st t)).
  { unfold existsSync. rewrite Hfs. reflexivity. }
  unfold startHlsObj, spawned, newEntry, onState. cbn [st prototype].
  rewrite Hdir, Hex, stopHlsObj_prototype.
  set (s2 := if existsSync _ _ then _ else _).
  assert (Hc : children (clearDir (getHlsDir k (st t)) s2) = children (st (stopHlsObj k t))
               /\ clock (clearDir (getHlsDir k (st t)) s2) = clock (st t)).
  { rewrite <- Hclock, clearDir_children. unfold clearDir, s2. clear Hex.
    destruct (existsSync (getHlsDir k (st t)) (st t)); destruct (fs _ !! _);
      split; reflexivity. }
  destruct Hc as [Hc Hk]. simpl. rewrite Hc, Hk, stopHlsObj_length. reflexivity.
Qed.

Lemma spawned_children k url t :
  children (spawned k url t)
  = (children (st (stopHlsObj k t))
       ++ [newChild k (ffmpegArgs (getHlsDir k (st t)) url)])%list.
Proof.
  unfold spawned. cbn [children spawn set_children log set_console].
  rewrite clearDir_children. destruct (existsSync _ _); reflexivity.
Qed.

Lemma spawned_own k url t : hlsStreams (spawned k url t) = hlsStreams (st (stopHlsObj k t)).
Proof.
  unfold spawned, clearDir. cbn [hlsStreams spawn set_children log set_console].
  destruct (existsSync _ _); destruct (fs _ !! _); reflexivity.
Qed.

Lemma startHlsObj_children k url t :
  children (st (startHlsObj k url t))
  = (children (st (stopHlsObj k t))
       ++ [newChild k (ffmpegArgs (getHlsDir k (st t)) url)])%list.
Proof.
  rewrite startHlsObj_eq. unfold writeSlot.
  destruct (decide (k = "__proto__")); cbn [st onState children set_hlsStreams];
    apply spawned_children.
Qed.

Lemma startHlsObj_own k url t :
  hlsStreams (st (startHlsObj k url t))
  = if decide (k = "__proto__") then hlsStreams (st t)
    else <[k := newEntry k url t]> (hlsStreams (st t)).
Proof.
  rewrite startHlsObj_eq. unfold writeSlot.
  destruct (decide (k = "__proto__")) as [Hk|Hk]; cbn [st onState hlsStreams set_hlsStreams];
    rewrite spawned_own, stopHlsObj_own.
  - rewrite decide_True by exact Hk. reflexivity.
  - rewrite decide_False by exact Hk. apply insert_delete_eq.
Qed.

Lemma startHlsObj_prototype k url t :
  prototype (startHlsObj k url t)
  = if decide (k = "__proto__") then Some (newEntry k url t) else prototype t.
Proof.
  rewrite startHlsObj_eq. unfold writeSlot.
  destruct (decide (k = "__proto__")); reflexivity.
Qed.

Lemma onExitObj_own k p code t :
  hlsStreams (st (onExitObj k p code t))
  = match readSlot k t with
    | Entry e =>
        if decide (process e = p)
        then (if decide (k = "__proto__") then hlsStreams (st t)
              else delete k (hlsStreams (st t)))
        else hlsStreams (st t)
    | _ => hlsStreams (st t)
    end.
Proof.
  unfold onExitObj. cbv zeta.
  change (readSlot k (onState (log (LogExited k code)) t)) with (readSlot k t).
  destruct (readSlot k t) as [|e|b]; try reflexivity.
  destruct (decide (process e = p)); [|reflexivity].
  unfold deleteSlot. destruct (decide (k = "__proto__")); reflexivity.
Qed.

Lemma onExitObj_frame k p code t :
  children (st (onExitObj k p code t)) = children (st t)
  /\ prototype (onExitObj k p code t) = prototype t.
Proof.
  unfold onExitObj. cbv zeta.
  change (readSlot k (onState (log (LogExited k code)) t)) with (readSlot k t).
  destruct (readSlot k t) as [|e|b]; try (split; reflexivity).
  destruct (decide (process e = p)); [|split; reflexivity].
  unfold deleteSlot. destruct (decide (k = "__proto__")); split; reflexivity.
Qed.

(** ** The invariant of the object *)

Lemma alter_keeps_slot (f : Child -> Child) (l : list Child) i j X :
  (forall c, child_slot (f c) = child_slot c) ->
  (exists c, l !! j = Some c /\ child_slot c = X) ->
  exists c, alter f i l !! j = Some c /\ child_slot c = X.
Proof.
  intros Hf (c & Hc & Hs). destruct (decide (i = j)) as [->|Hne].
  - exists (f c). rewrite list_lookup_alter_eq, Hc. split; [reflexivity|]. rewrite Hf. exact Hs.
  - exists c. rewrite list_lookup_alter_ne by exact Hne. auto.
Qed.

Lemma read_entry_child t k e :
  objInv t -> readSlot k t = Entry e ->
  exists c, children (st t) !! process e = Some c /\ child_slot c = k.
Proof.
  intros Hinv Hr. destruct (decide (k = "__proto__")) as [->|Hk].
  - rewrite readSlot_proto in Hr. destruct (prototype t) as [ep|] eqn:Hp; [|discriminate].
    inversion Hr; subst ep. apply (inv_proto t Hinv e Hp).
  - apply (readSlot_Entry k t e Hk) in Hr.
    destruct (inv_sound t Hinv k e Hr) as (c & Hc & Hs & _). eauto.
Qed.

Lemma read_not_entry_own t k :
  k <> "__proto__" -> (forall e, readSlot k t <> Entry e) -> hlsStreams (st t) !! k = None.
Proof.
  intros Hk Hr. destruct (hlsStreams (st t) !! k) as [e|] eqn:He; [|reflexivity].
  exfalso. apply (Hr e). apply readSlot_own; assumption.
Qed.

Lemma objInv_stop k t : objInv t -> objInv (stopHlsObj k t).
Proof.
  intros Hinv. split.
  - rewrite stopHlsObj_own. destruct (decide (k = "__proto__")); [apply Hinv|].
    rewrite lookup_delete_ne by congruence. apply Hinv.
  - intros A e' He'. rewrite stopHlsObj_own in He'.
    assert (HA : hlsStreams (st t) !! A = Some e' /\ A <> k).
    { destruct (decide (k = "__proto__")) as [->|Hk].
      - split; [exact He'|]. intros ->. rewrite (inv_own t Hinv) in He'. discriminate.
      - apply lookup_delete_Some in He' as [Hne He']. split; congruence. }
    destruct HA as [HA Hne].
    destruct (inv_sound t Hinv A e' HA) as (c & Hc & Hs & Hk' & Hx).
    exists c. split; [|auto]. rewrite stopHlsObj_children.
    destruct (readSlot k t) as [|e|b] eqn:Hr; try exact Hc.
    destruct (read_entry_child t k e Hinv Hr) as (ck & Hck & Hsk).
    rewrite list_lookup_alter_ne; [exact Hc|].
    intros Heq. rewrite Heq, Hc in Hck. inversion Hck; subst ck. congruence.
  - intros p c Hc Hkl Hx Hslot. rewrite stopHlsObj_children in Hc.
    unfold registered. rewrite stopHlsObj_own.
    destruct (readSlot k t) as [|e|b] eqn:Hr.
    + destruct (inv_live t Hinv p c Hc Hkl Hx Hslot) as (e0 & He0 & Hp0).
      exists e0. split; [|exact Hp0].
      destruct (decide (k = "__proto__")) as [Hk|Hk]; [exact He0|].
      rewrite lookup_delete_ne; [exact He0|]. intros Heq.
      rewrite <- Heq, (read_not_entry_own t k Hk) in He0; [discriminate|].
      intros e1. rewrite Hr. discriminate.
    + destruct (decide (p = process e)) as [->|Hne].
      { apply lookup_alter_same in Hc as (c0 & _ & ->). discriminate Hkl. }
      rewrite list_lookup_alter_ne in Hc by congruence.
      destruct (inv_live t Hinv p c Hc Hkl Hx Hslot) as (e0 & He0 & Hp0).
      exists e0. split; [|exact Hp0].
      destruct (decide (k = "__proto__")) as [Hk|Hk]; [exact He0|].
      rewrite lookup_delete_ne; [exact He0|]. intros Heq.
      rewrite <- Heq in He0. rewrite (readSlot_own k t e0 Hk He0) in Hr.
      inversion Hr; subst e0. congruence.
    + destruct (inv_live t Hinv p c Hc Hkl Hx Hslot) as (e0 & He0 & Hp0).
      exists e0. split; [|exact Hp0].
      destruct (decide (k = "__proto__")) as [Hk|Hk]; [exact He0|].
      rewrite lookup_delete_ne; [exact He0|]. intros Heq.
      rewrite <- Heq, (read_not_entry_own t k Hk) in He0; [discriminate|].
      intros e1. rewrite Hr. discriminate.
  - intros e He. rewrite stopHlsObj_prototype in He.
    pose proof (inv_proto t Hinv e He) as Hc. rewrite stopHlsObj_children.
    destruct (readSlot k t); try exact Hc.
    apply alter_keeps_slot; [reflexivity|exact Hc].
Qed.

Lemma objInv_start k url t : objInv t -> objInv (startHlsObj k url t).
Proof.
  intros Hinv. pose proof (objInv_stop k t Hinv) as H1.
  pose proof (stopHlsObj_own k t) as Hown1.
  assert (Hnew : children (st (startHlsObj k url t)) !! length (children (st t))
                 = Some (newChild k (ffmpegArgs (getHlsDir k (st t)) url))).
  { rewrite startHlsObj_children, lookup_app_r by (rewrite stopHlsObj_length; lia).
    rewrite stopHlsObj_length, Nat.sub_diag. reflexivity. }
  assert (Hold : forall p c, children (st (stopHlsObj k t)) !! p = Some c ->
                             children (st (startHlsObj k url t)) !! p = Some c).
  { intros p c Hc. rewrite startHlsObj_children, lookup_app_l; [exact Hc|].
    apply lookup_lt_Some in Hc. exact Hc. }
  split.
  - rewrite startHlsObj_own. destruct (decide (k = "__proto__")); [apply Hinv|].
    rewrite lookup_insert_ne by congruence. apply Hinv.
  - intros A e' He'. rewrite startHlsObj_own in He'.
    destruct (decide (k = "__proto__")) as [Hk|Hk].
    + rewrite <- Hown1 in He'.
      destruct (inv_sound _ H1 A e' He') as (c & Hc & Hrest).
      exists c. split; [apply Hold, Hc|exact Hrest].
    + destruct (decide (k = A)) as [<-|Hne].
      * rewrite lookup_insert_eq in He'. inversion He'; subst e'. cbn [process newEntry].
        eexists. split; [exact Hnew|]. simpl. auto.
      * rewrite lookup_insert_ne in He' by exact Hne.
        assert (He1 : hlsStreams (st (stopHlsObj k t)) !! A = Some e').
        { rewrite Hown1, lookup_delete_ne by exact Hne. exact He'. }
        destruct (inv_sound _ H1 A e' He1) as (c & Hc & Hrest).
        exists c. split; [apply Hold, Hc|exact Hrest].
  - intros p c Hc Hkl Hx Hslot. unfold registered. rewrite startHlsObj_own.
    rewrite startHlsObj_children in Hc.
    apply lookup_app_Some in Hc as [Hc|[Hlen Hc]].
    + destruct (inv_live _ H1 p c Hc Hkl Hx Hslot) as (e0 & He0 & Hp0).
      exists e0. split; [|exact Hp0]. rewrite Hown1 in He0.
      destruct (decide (k = "__proto__")) as [Hk|Hk]; [exact He0|].
      apply lookup_delete_Some in He0 as [Hne He0].
      rewrite lookup_insert_ne by exact Hne. exact He0.
    + rewrite stopHlsObj_length in Hlen, Hc.
      destruct (p - length (children (st t)))%nat as [|n] eqn:Hn; simpl in Hc;
        [|discriminate Hc].
      inversion Hc; subst c. simpl in Hslot.
      rewrite decide_False by exact Hslot.
      eexists. split; [apply lookup_insert_eq|]. cbn [process newEntry]. lia.
  - intros e He. rewrite startHlsObj_prototype in He.
    destruct (decide (k = "__proto__")) as [Hk|Hk].
    + inversion He; subst e. cbn [process newEntry].
      eexists. split; [exact Hnew|]. exact Hk.
    + rewrite <- (stopHlsObj_prototype k t) in He.
      destruct (inv_proto _ H1 e He) as (c & Hc & Hs).
      exists c. split; [apply Hold, Hc|exact Hs].
Qed.

Lemma childExitObj_children p code t :
  children (st (childExitObj p code t)) = alter markExited p (children (st t)).
Proof.
  unfold childExitObj. destruct (children (st t) !! p) as [c|] eqn:Hc.
  - destruct (onExitObj_frame (child_slot c) p code
                (onState (fun s => set_children (alter markExited p (children s)) s) t))
      as [-> _]. reflexivity.
  - symmetry. apply alter_absent. exact Hc.
Qed.

Lemma childExitObj_prototype p code t : prototype (childExitObj p code t) = prototype t.
Proof.
  unfold childExitObj. destruct (children (st t) !! p) as [c|]; [|reflexivity].
  destruct (onExitObj_frame (child_slot c) p code
              (onState (fun s => set_children (alter markExited p (children s)) s) t))
    as [_ ->]. reflexivity.
Qed.

Lemma childExitObj_own p code t c :
  children (st t) !! p = Some c ->
  hlsStreams (st (childExitObj p code t))
  = match readSlot (child_slot c) t with
    | Entry e =>
        if decide (process e = p)
        then (if decide (child_slot c = "__proto__") then hlsStreams (st t)
              else delete (child_slot c) (hlsStreams (st t)))
        else hlsStreams (st t)
    | _ => hlsStreams (st t)
    end.
Proof.
  intros Hc. unfold childExitObj. rewrite Hc. rewrite onExitObj_own. reflexivity.
Qed.

Lemma objInv_exit p code t : objInv t -> objInv (childExitObj p code t).
Proof.
  intros Hinv. destruct (children (st t) !! p) as [cp|] eqn:Hcp;
    [|unfold childExitObj; rewrite Hcp; exact Hinv].
  pose proof (childExitObj_own p code t cp Hcp) as Hown.
  assert (Hsub : forall A e', hlsStreams (st (childExitObj p code t)) !! A = Some e' ->
                              hlsStreams (st t) !! A = Some e').
  { intros A e'. rewrite Hown.
    destruct (readSlot (child_slot cp) t) as [|e|b]; try tauto.
    destruct (decide (process e = p)); [|tauto].
    destruct (decide (child_slot cp = "__proto__")); [tauto|].
    intros H. apply lookup_delete_Some in H. tauto. }
  assert (Hkeep : forall A e', hlsStreams (st t) !! A = Some e' -> process e' <> p ->
                               hlsStreams (st (childExitObj p code t)) !! A = Some e').
  { intros A e' He' Hne. rewrite Hown.
    destruct (readSlot (child_slot cp) t) as [|e|b] eqn:Hr; try exact He'.
    destruct (decide (process e = p)) as [Hp|]; [|exact He'].
    destruct (decide (child_slot cp = "__proto__")) as [|Hk]; [exact He'|].
    rewrite lookup_delete_ne; [exact He'|]. intros Heq.
    rewrite <- Heq in He'. apply (readSlot_Entry _ t e Hk) in Hr. congruence. }
  split.
  - destruct (hlsStreams (st (childExitObj p code t)) !! "__proto__") as [e'|] eqn:He;
      [|reflexivity].
    apply Hsub in He. rewrite (inv_own t Hinv) in He. discriminate.
  - intros A e' He'. pose proof (Hsub A e' He') as He0.
    destruct (inv_sound t Hinv A e' He0) as (c & Hc & Hs & Hk & Hx).
    assert (Hne : process e' <> p).
    { intros Heq. rewrite Heq, Hcp in Hc. inversion Hc; subst c.
      assert (HA : A <> "__proto__").
      { intros ->. rewrite (inv_own t Hinv) in He0. discriminate. }
      rewrite Hown, Hs, (readSlot_own A t e' HA He0) in He'.
      rewrite decide_True in He' by exact Heq. rewrite decide_False in He' by exact HA.
      rewrite lookup_delete_eq in He'. discriminate. }
    exists c. split; [|auto].
    rewrite childExitObj_children, list_lookup_alter_ne by congruence. exact Hc.
  - intros q c Hc Hk Hx Hslot. rewrite childExitObj_children in Hc.
    destruct (decide (q = p)) as [->|Hne].
    { apply lookup_alter_same in Hc as (c0 & _ & ->). discriminate Hx. }
    rewrite list_lookup_alter_ne in Hc by congruence.
    destruct (inv_live t Hinv q c Hc Hk Hx Hslot) as (e0 & He0 & Hp0).
    exists e0. split; [|exact Hp0]. apply Hkeep; [exact He0|congruence].
  - intros e He. rewrite childExitObj_prototype in He.
    rewrite childExitObj_children. apply alter_keeps_slot; [reflexivity|].
    apply (inv_proto t Hinv e He).
Qed.

Lemma objInv_stopAll keys t : objInv t -> objInv (stopAllHlsObj keys t).
Proof.
  unfold stopAllHlsObj. revert t. induction keys as [|k keys IH]; intros t Hinv; simpl;
    [exact Hinv|].
  apply IH, objInv_stop, Hinv.
Qed.

Lemma objInv_step t t' : stepObj t t' -> objInv t -> objInv t'.
Proof.
  intros Hstep Hinv. destruct Hstep as [k u t|k t|keys t _|p c code t Hc Hx|t s' Hh Hc].
  - apply objInv_start, Hinv.
  - apply objInv_stop, Hinv.
  - apply objInv_stopAll, Hinv.
  - apply objInv_exit, Hinv.
  - destruct Hinv as [Ho Hs Hl Hp]. split; cbn [st prototype].
    + rewrite Hh. exact Ho.
    + intros A e He. rewrite Hh in He. destruct (Hs A e He) as (c & Hcc & Hrest).
      exists c. rewrite Hc. auto.
    + intros p c Hpc Hk Hx Hslot. rewrite Hc in Hpc. unfold registered. rewrite Hh.
      apply (Hl p c Hpc Hk Hx Hslot).
    + intros e He. rewrite Hc. apply (Hp e He).
Qed.

Lemma objInv_reachable t : reachableObj t -> objInv t.
Proof.
  intros (s0 & Hh & Hc & Hsteps).
  assert (H0 : objInv (bootObj s0)).
  { split; cbn [st prototype bootObj].
    - rewrite Hh. apply lookup_empty.
    - intros A e He. rewrite Hh, lookup_empty in He. discriminate.
    - intros p c Hp. rewrite Hc in Hp. discriminate.
    - intros e He. discriminate. }
  clear Hh Hc. remember (bootObj s0) as t0. clear Heqt0.
  induction Hsteps as [t|t t' t'' Hst _ IH]; [exact H0|].
  apply IH, (objInv_step t t' Hst H0).
Qed.

Lemma reachableObj_step t t' : reachableObj t -> stepObj t t' -> reachableObj t'.
Proof.
  intros (s0 & Hh & Hc & Hsteps) Hst. exists s0. split; [exact Hh|]. split; [exact Hc|].
  eapply rtc_r; eassumption.
Qed.

Lemma reachableObj_boot c tmp rt now : reachableObj (bootObj (boot c tmp rt now)).
Proof.
  exists (boot c tmp rt now). split; [reflexivity|]. split; [reflexivity|]. apply rtc_refl.
Qed.

Lemma deleteEach_lookup (ks : list string) (m : gmap string Slot) k :
  foldl (fun m' k' => delete k' m') m ks !! k
  = if decide (k ∈ ks) then None else m !! k.
Proof.
  revert m. induction ks as [|k' ks IH]; intros m; simpl.
  - destruct (decide (k ∈ [])) as [H|_]; [inversion H|reflexivity].
  - rewrite IH. destruct (decide (k ∈ ks)) as [Hin|Hnin].
    + rewrite decide_True by (right; exact Hin). reflexivity.
    + destruct (decide (k = k')) as [->|Hne].
      * rewrite decide_True by (left; reflexivity). apply lookup_delete_eq.
      * rewrite decide_False.
        -- apply lookup_delete_ne. congruence.
        -- intros Hin. apply elem_of_cons in Hin as [?|?]; contradiction.
Qed.

Lemma stopAllHlsObj_own keys t :
  "__proto__" ∉ keys ->
  hlsStreams (st (stopAllHlsObj keys t))
  = foldl (fun m k => delete k m) (hlsStreams (st t)) keys.
Proof.
  unfold stopAllHlsObj. revert t. induction keys as [|k keys IH]; intros t Hk; simpl;
    [reflexivity|].
  apply not_elem_of_cons in Hk as [Hne Hk].
  rewrite (IH _ Hk), stopHlsObj_own, decide_False by congruence. reflexivity.
Qed.

Lemma stopAllHlsObj_frame keys t :
  prototype (stopAllHlsObj keys t) = prototype t
  /\ fs (st (stopAllHlsObj keys t)) = fs (st t)
  /\ length (children (st (stopAllHlsObj keys t))) = length (children (st t)).
Proof.
  unfold stopAllHlsObj. revert t. induction keys as [|k keys IH]; intros t; simpl; [auto|].
  destruct (IH (stopHlsObj k t)) as (-> & -> & ->).
  destruct (stopHlsObj_frame k t) as (-> & _). rewrite stopHlsObj_prototype, stopHlsObj_length.
  auto.
Qed.

(** Stopping a slot other than ["__proto__"] leaves the children spawned
    under ["__proto__"] as they are. *)
Lemma stopHlsObj_spares_proto k t p c :
  objInv t -> k <> "__proto__" ->
  children (st t) !! p = Some c -> child_slot c = "__proto__" ->
  children (st (stopHlsObj k t)) !! p = Some c.
Proof.
  intros Hinv Hk Hc Hs. rewrite stopHlsObj_children.
  destruct (readSlot k t) as [|e|b] eqn:Hr; try exact Hc.
  destruct (read_entry_child t k e Hinv Hr) as (ck & Hck & Hsk).
  rewrite list_lookup_alter_ne; [exact Hc|].
  intros Heq. rewrite Heq, Hc in Hck. inversion Hck; subst ck. congruence.
Qed.

Lemma stopAllHlsObj_spares_proto keys t p c :
  objInv t -> "__proto__" ∉ keys ->
  children (st t) !! p = Some c -> child_slot c = "__proto__" ->
  children (st (stopAllHlsObj keys t)) !! p = Some c.
Proof.
  unfold stopAllHlsObj. revert t. induction keys as [|k keys IH]; intros t Hinv Hk Hc Hs;
    simpl; [exact Hc|].
  apply not_elem_of_cons in Hk as [Hne Hk].
  apply IH; [apply objInv_stop, Hinv|exact Hk| |exact Hs].
  apply stopHlsObj_spares_proto; auto.
Qed.

(** ** Where the object breaks the table: the key ["__proto__"] *)

(** C5 fails in the code at the slot id ["__proto__"]. Starting that slot
    makes the entry the prototype of [hlsStreams]; [stopHls] then kills
    the child, but its [delete] removes nothing, so the entry is still
    what [hlsStreams['__proto__']] gives, and a second [stopHls] is no
    no-op: it finds the entry again and logs again. And on a table without
    the key, [stopHls] of an inherited name such as ["toString"] logs a
    stop although nothing was registered. *)
Theorem stopHls_proto_stays_registered (s : State) (url : string) :
  let e := newEntry "__proto__" url (bootObj s) in
  let t1 := startHlsObj "__proto__" url (bootObj s) in
  let t2 := stopHlsObj "__proto__" t1 in
  readSlot "__proto__" t1 = Entry e
  /\ children (st t2) !! process e
     = Some (markKilled (newChild "__proto__" (ffmpegArgs (getHlsDir "__proto__" s) url)))
  /\ readSlot "__proto__" t2 = Entry e
  /\ console (st (stopHlsObj "__proto__" t2))
     = (console (st t2) ++ [LogStopped "__proto__"])%list
  /\ (hlsStreams s !! "toString" = None ->
      console (st (stopHlsObj "toString" (bootObj s)))
      = (console s ++ [LogStopped "toString"])%list).
Proof.
  intros e t1 t2.
  assert (Hp1 : prototype t1 = Some e).
  { unfold t1. rewrite startHlsObj_prototype. reflexivity. }
  assert (Hr1 : readSlot "__proto__" t1 = Entry e).
  { rewrite readSlot_proto, Hp1. reflexivity. }
  assert (Hr2 : readSlot "__proto__" t2 = Entry e).
  { rewrite readSlot_proto. unfold t2. rewrite stopHlsObj_prototype, Hp1. reflexivity. }
  split; [exact Hr1|]. split; [|split; [exact Hr2|split]].
  - unfold t2. rewrite stopHlsObj_children, Hr1. unfold t1.
    rewrite startHlsObj_children.
    cbn [process e newEntry bootObj st].
    rewrite list_lookup_alter_eq.
    rewrite lookup_app_r by (rewrite stopHlsObj_length; reflexivity).
    rewrite stopHlsObj_length. cbn [bootObj st]. rewrite Nat.sub_diag. reflexivity.
  - unfold stopHlsObj at 1. rewrite Hr2. reflexivity.
  - intros Hn. unfold stopHlsObj, readSlot. cbn [bootObj st prototype].
    rewrite decide_False by discriminate. rewrite Hn. reflexivity.
Qed.

(** C7 fails in the code at the slot id ["__proto__"]. When the child
    started under that id exits, the entry the table gives for the id is
    the one of that exact child, and the observer's [delete] removes
    nothing: after the exit the table still gives that entry. *)
Theorem exit_observer_proto_keeps_entry (s : State) (url : string) (code : option Z) :
  let e := newEntry "__proto__" url (bootObj s) in
  let t1 := startHlsObj "__proto__" url (bootObj s) in
  let t2 := childExitObj (process e) code t1 in
  readSlot "__proto__" t1 = Entry e
  /\ process e = length (children s)
  /\ children (st t2) !! process e
     = Some (markExited (newChild "__proto__" (ffmpegArgs (getHlsDir "__proto__" s) url)))
  /\ readSlot "__proto__" t2 = Entry e.
Proof.
  intros e t1 t2.
  assert (Hp1 : prototype t1 = Some e).
  { unfold t1. rewrite startHlsObj_prototype. reflexivity. }
  split; [rewrite readSlot_proto, Hp1; reflexivity|]. split; [reflexivity|]. split.
  - unfold t2. rewrite childExitObj_children. unfold t1. rewrite startHlsObj_children.
    cbn [process e newEntry bootObj st].
    rewrite list_lookup_alter_eq.
    rewrite lookup_app_r by (rewrite stopHlsObj_length; reflexivity).
    rewrite stopHlsObj_length. cbn [bootObj st]. rewrite Nat.sub_diag. reflexivity.
  - rewrite readSlot_proto. unfold t2. rewrite childExitObj_prototype, Hp1. reflexivity.
Qed.

(** ** The table and the live children, on the object *)

(** X1. In every state the server can reach, whatever slot ids were used,
    for every slot id [A] other than ["__proto__"]: the table gives an
    entry with process [p] for [A] exactly when [p] is a live child
    spawned for [A], one that was neither killed nor has exited. *)
Theorem registered_iff_live (t : Server) (A : string) (p : nat) :
  reachableObj t -> A <> "__proto__" ->
  ((exists e, readSlot A t = Entry e /\ process e = p) <-> liveFor (st t) A p).
Proof.
  intros Hreach HA. pose proof (objInv_reachable t Hreach) as Hinv. split.
  - intros (e & Hr & <-). apply (inv_sound t Hinv), (readSlot_Entry A t e HA Hr).
  - intros (c & Hc & <- & Hk & Hx).
    destruct (inv_live t Hinv p c Hc Hk Hx HA) as (e & He & Hp).
    exists e. split; [apply readSlot_own; assumption|exact Hp].
Qed.

Lemma registered_iff_live_witness :
  (exists e,
     readSlot "0" (startHlsObj "0" "rtsp://cam/live"
                     (startHlsObj "__proto__" "rtsp://cam/x"
                        (bootObj (boot exampleConfig "/tmp" None 1000)))) = Entry e
     /\ process e = 1)
  <-> liveFor (st (startHlsObj "0" "rtsp://cam/live"
                     (startHlsObj "__proto__" "rtsp://cam/x"
                        (bootObj (boot exampleConfig "/tmp" None 1000))))) "0" 1.
Proof.
  apply registered_iff_live; [|discriminate].
  eapply reachableObj_step; [|apply stepObj_start].
  eapply reachableObj_step; [apply reachableObj_boot|apply stepObj_start].
Defined.

(** X2. [stopAllHls], the handler of SIGTERM and SIGINT, run on a state
    the server can reach, in whatever order [Object.keys] lists the own
    keys: it leaves the object without own entries and no live child for
    any slot id other than ["__proto__"]; it spawns nothing and removes no
    file. A relay started under ["__proto__"] is not among the keys: its
    child is left as it was, and the table still gives its entry. *)
Theorem stopAllHls_stops_everything (t : Server) (keys : list string) :
  reachableObj t -> keys ≡ₚ ownKeys t ->
  hlsStreams (st (stopAllHlsObj keys t)) = ∅
  /\ (forall A p, A <> "__proto__" -> ~ liveFor (st (stopAllHlsObj keys t)) A p)
  /\ (forall p c, children (st t) !! p = Some c -> child_slot c = "__proto__" ->
                  children (st (stopAllHlsObj keys t)) !! p = Some c)
  /\ readSlot "__proto__" (stopAllHlsObj keys t) = readSlot "__proto__" t
  /\ length (children (st (stopAllHlsObj keys t))) = length (children (st t))
  /\ fs (st (stopAllHlsObj keys t)) = fs (st t).
Proof.
  intros Hreach Hkeys. pose proof (objInv_reachable t Hreach) as Hinv.
  assert (Hin : forall k, k ∈ keys <-> is_Some (hlsStreams (st t) !! k)).
  { intros k. rewrite Hkeys. unfold ownKeys. rewrite elem_of_elements. apply elem_of_dom. }
  assert (Hnp : "__proto__" ∉ keys).
  { intros H. apply Hin in H as [e He]. rewrite (inv_own t Hinv) in He. discriminate. }
  assert (Hempty : hlsStreams (st (stopAllHlsObj keys t)) = ∅).
  { apply map_eq. intros k.
    rewrite (stopAllHlsObj_own keys t Hnp), deleteEach_lookup, lookup_empty.
    destruct (decide (k ∈ keys)) as [_|Hn]; [reflexivity|].
    destruct (hlsStreams (st t) !! k) as [e|] eqn:He; [|reflexivity].
    exfalso. apply Hn, Hin. eauto. }
  destruct (stopAllHlsObj_frame keys t) as (Hp & Hfs & Hlen).
  split; [exact Hempty|]. split; [|split; [|split; [|split]]].
  - intros A p HA (c & Hc & Hs & Hk & Hx).
    pose proof (objInv_stopAll keys t Hinv) as Hinv'.
    rewrite <- Hs in HA.
    destruct (inv_live _ Hinv' p c Hc Hk Hx HA) as (e & He & _).
    rewrite Hempty, lookup_empty in He. discriminate.
  - intros p c Hc Hs. apply stopAllHlsObj_spares_proto; auto.
  - rewrite !readSlot_proto, Hp. reflexivity.
  - exact Hlen.
  - exact Hfs.
Qed.

Lemma stopAllHls_stops_everything_witness :
  hlsStreams (st (stopAllHlsObj ["0"]
                    (startHlsObj "0" "rtsp://cam/live"
                       (startHlsObj "__proto__" "rtsp://cam/x"
                          (bootObj (boot exampleConfig "/tmp" None 1000)))))) = ∅.
Proof.
  refine (proj1 (stopAllHls_stops_everything
                   (startHlsObj "0" "rtsp://cam/live"
                      (startHlsObj "__proto__" "rtsp://cam/x"
                         (bootObj (boot exampleConfig "/tmp" None 1000))))
                   ["0"] _ _)).
  - eapply reachableObj_step; [|apply stepObj_start].
    eapply reachableObj_step; [apply reachableObj_boot|apply stepObj_start].
  - vm_compute. reflexivity.
Defined.

Lemma onExitObj_tmpdir k p code t :
  tmpdir (st (onExitObj k p code t)) = tmpdir (st t).
Proof.
  unfold onExitObj. cbv zeta.
  change (readSlot k (onState (log (LogExited k code)) t)) with (readSlot k t).
  destruct (readSlot k t) as [|e|b]; try reflexivity.
  destruct (decide (process e = p)); [|reflexivity].
  unfold deleteSlot. destruct (decide (k = "__proto__")); reflexivity.
Qed.

Lemma childExitObj_tmpdir p code t :
  tmpdir (st (childExitObj p code t)) = tmpdir (st t).
Proof.
  unfold childExitObj. destruct (children (st t) !! p) as [c|]; [|reflexivity].
  rewrite onExitObj_tmpdir. reflexivity.
Qed.

(** X4. On a state the server can reach and for a slot id [A] other than
    ["__proto__"]: when the child registered for [A] exits on its own, the
    entry of [A] is removed; a following [stopHls A] sends no signal and
    leaves the table as it is, and a following [startHls A] spawns the new
    child without calling [kill] on the old one. *)
Theorem exit_frees_slot (t : Server) (A : string) (e : Slot) (code : option Z) :
  reachableObj t -> A <> "__proto__" -> readSlot A t = Entry e ->
  let t' := childExitObj (process e) code t in
  hlsStreams (st t') = delete A (hlsStreams (st t))
  /\ (forall e', readSlot A t' <> Entry e')
  /\ children (st (stopHlsObj A t')) = children (st t')
  /\ hlsStreams (st (stopHlsObj A t')) = hlsStreams (st t')
  /\ forall url,
       children (st (startHlsObj A url t'))
       = (alter markExited (process e) (children (st t))
            ++ [newChild A (ffmpegArgs (getHlsDir A (st t)) url)])%list.
Proof.
  intros Hreach HA Hr t'. pose proof (objInv_reachable t Hreach) as Hinv.
  destruct (read_entry_child t A e Hinv Hr) as (c & Hc & Hs).
  assert (Hown : hlsStreams (st t') = delete A (hlsStreams (st t))).
  { unfold t'. rewrite (childExitObj_own _ code t c Hc), Hs, Hr.
    rewrite decide_True by reflexivity. rewrite decide_False by exact HA. reflexivity. }
  assert (Hno : forall e', readSlot A t' <> Entry e').
  { intros e' Hr'. apply (readSlot_Entry A t' e' HA) in Hr'.
    rewrite Hown, lookup_delete_eq in Hr'. discriminate. }
  assert (Hch : children (st (stopHlsObj A t')) = children (st t')).
  { rewrite stopHlsObj_children. destruct (readSlot A t') as [|e'|b] eqn:Hr'; try reflexivity.
    exfalso. apply (Hno e'). reflexivity. }
  split; [exact Hown|]. split; [exact Hno|]. split; [exact Hch|]. split.
  - rewrite stopHlsObj_own, decide_False by exact HA.
    apply delete_id. rewrite Hown. apply lookup_delete_eq.
  - intros url. rewrite startHlsObj_children, Hch. unfold t'.
    rewrite childExitObj_children.
    assert (Hdir : getHlsDir A (st (childExitObj (process e) code t)) = getHlsDir A (st t)).
    { unfold getHlsDir. rewrite childExitObj_tmpdir. reflexivity. }
    rewrite Hdir. reflexivity.
Qed.

Lemma exit_frees_slot_witness :
  hlsStreams (st (childExitObj 0 (Some 1%Z)
                    (startHlsObj "0" "rtsp://cam/a"
                       (bootObj (boot exampleConfig "/tmp" None 1000)))))
  = delete "0" (hlsStreams (st (startHlsObj "0" "rtsp://cam/a"
                                  (bootObj (boot exampleConfig "/tmp" None 1000))))).
Proof.
  refine (proj1 (exit_frees_slot
                   (startHlsObj "0" "rtsp://cam/a"
                      (bootObj (boot exampleConfig "/tmp" None 1000)))
                   "0" (newEntry "0" "rtsp://cam/a"
                          (bootObj (boot exampleConfig "/tmp" None 1000)))
                   (Some 1%Z) _ _ _)).
  - eapply reachableObj_step; [apply reachableObj_boot|apply stepObj_start].
  - discriminate.
  - vm_compute. reflexivity.
Defined.

(** X19. On a state the server can reach and for every slot id [A] other
    than ["__proto__"], [stopHls A] is idempotent on the table and the
    children: when the table gives an entry for [A], its child is marked
    killed and the entry is removed; afterwards the table gives no entry
    for [A], and a second [stopHls A] sends no signal and removes nothing;
    when the table gives [undefined] for [A], [stopHls A] changes nothing
    at all. *)
Theorem stopHls_idempotent_on_own_keys (t : Server) (A : string) :
  reachableObj t -> A <> "__proto__" ->
  let t1 := stopHlsObj A t in
  (forall e, readSlot A t = Entry e ->
     exists c, children (st t1) !! process e = Some c
               /\ child_killed c = true /\ child_slot c = A)
  /\ hlsStreams (st t1) !! A = None
  /\ (forall e, readSlot A t1 <> Entry e)
  /\ children (st (stopHlsObj A t1)) = children (st t1)
  /\ hlsStreams (st (stopHlsObj A t1)) = hlsStreams (st t1)
  /\ (readSlot A t = Undefined -> t1 = t).
Proof.
  intros Hreach HA t1. pose proof (objInv_reachable t Hreach) as Hinv.
  assert (Hnone : hlsStreams (st t1) !! A = None).
  { unfold t1. rewrite stopHlsObj_own, decide_False by exact HA. apply lookup_delete_eq. }
  assert (Hno : forall e, readSlot A t1 <> Entry e).
  { intros e Hr. apply (readSlot_Entry A t1 e HA) in Hr. congruence. }
  split; [|split; [exact Hnone|split; [exact Hno|split; [|split]]]].
  - intros e Hr. destruct (read_entry_child t A e Hinv Hr) as (c & Hc & Hs).
    exists (markKilled c). unfold t1. rewrite stopHlsObj_children, Hr.
    rewrite list_lookup_alter_eq, Hc. auto.
  - rewrite stopHlsObj_children. destruct (readSlot A t1) as [|e|b] eqn:Hr; try reflexivity.
    exfalso. apply (Hno e). reflexivity.
  - rewrite stopHlsObj_own, decide_False by exact HA. apply delete_id, Hnone.
  - intros Hu. unfold t1, stopHlsObj. rewrite Hu. reflexivity.
Qed.

Lemma stopHls_idempotent_on_own_keys_witness :
  hlsStreams (st (stopHlsObj "0"
                    (startHlsObj "0" "rtsp://cam/a"
                       (bootObj (boot exampleConfig "/tmp" None 1000))))) !! "0" = None.
Proof.
  refine (proj1 (proj2 (stopHls_idempotent_on_own_keys
                          (startHlsObj "0" "rtsp://cam/a"
                             (bootObj (boot exampleConfig "/tmp" None 1000))) "0" _ _))).
  - eapply reachableObj_step; [apply reachableObj_boot|apply stepObj_start].
  - discriminate.
Defined.

(** X20. For every slot id [A] other than ["__proto__"], the exit
    observer removes the entry of [A] exactly when the table gives for [A]
    an entry whose process is the exited child; in every other case
    (another process registered, nothing registered, an inherited value)
    it leaves the table as it is. It never spawns and never changes the
    prototype. *)
Theorem exit_observer_guard_on_own_keys
    (t : Server) (A : string) (p : nat) (code : option Z) :
  A <> "__proto__" ->
  ((exists e, readSlot A t = Entry e /\ process e = p) ->
     hlsStreams (st (onExitObj A p code t)) = delete A (hlsStreams (st t))
     /\ forall e, readSlot A (onExitObj A p code t) <> Entry e)
  /\ (~ (exists e, readSlot A t = Entry e /\ process e = p) ->
      hlsStreams (st (onExitObj A p code t)) = hlsStreams (st t))
  /\ children (st (onExitObj A p code t)) = children (st t)
  /\ prototype (onExitObj A p code t) = prototype t.
Proof.
  intros HA. split; [|split; [|apply onExitObj_frame]].
  - intros (e & Hr & Hp).
    assert (Hown : hlsStreams (st (onExitObj A p code t)) = delete A (hlsStreams (st t))).
    { rewrite onExitObj_own, Hr, decide_True by exact Hp.
      rewrite decide_False by exact HA. reflexivity. }
    split; [exact Hown|]. intros e' Hr'.
    apply (readSlot_Entry A _ e' HA) in Hr'. rewrite Hown, lookup_delete_eq in Hr'.
    discriminate.
  - intros Hn. rewrite onExitObj_own.
    destruct (readSlot A t) as [|e|b] eqn:Hr; try reflexivity.
    rewrite decide_False; [reflexivity|]. intros Hp. apply Hn. eauto.
Qed.

Lemma exit_observer_guard_on_own_keys_witness :
  hlsStreams (st (onExitObj "0" 0 (Some 0%Z)
                    (startHlsObj "0" "rtsp://cam/b"
                       (startHlsObj "0" "rtsp://cam/a"
                          (bootObj (boot exampleConfig "/tmp" None 1000))))))
  = hlsStreams (st (startHlsObj "0" "rtsp://cam/b"
                      (startHlsObj "0" "rtsp://cam/a"
                         (bootObj (boot exampleConfig "/tmp" None 1000))))).
Proof.
  refine (proj1 (proj2 (exit_observer_guard_on_own_keys
                          (startHlsObj "0" "rtsp://cam/b"
                             (startHlsObj "0" "rtsp://cam/a"
                                (bootObj (boot exampleConfig "/tmp" None 1000))))
                          "0" 0 (Some 0%Z) _)) _).
  - discriminate.
  - intros (e & Hr & Hp). vm_compute in Hr. inversion Hr; subst e. discriminate Hp.
Defined.

(** ** The object as a dictionary *)




(** * Paths and the files of a slot *)

Lemma str_app_nil_r (a : string) : a ++ "" = a.
Proof.
  induction a as [|c a IH]; [reflexivity|].
  change (String c a ++ "") with (String c (a ++ "")). rewrite IH. reflexivity.
Qed.

Lemma str_app_assoc (a b c : string) : (a ++ b) ++ c = a ++ b ++ c.
Proof.
  induction a as [|d a IH]; [reflexivity|].
  change ((String d a ++ b) ++ c) with (String d ((a ++ b) ++ c)).
  rewrite IH. reflexivity.
Qed.

Lemma str_app_inv_head (a x y : string) : a ++ x = a ++ y -> x = y.
Proof.
  induction a as [|c a IH]; [auto|]. intros H. apply IH.
  change (String c (a ++ x) = String c (a ++ y)) in H. congruence.
Qed.

Lemma absolutePath_cons x rest :
  absolutePath (x :: rest) = String slash (x ++ absolutePath rest).
Proof. reflexivity. Qed.

Lemma absolutePath_app l1 l2 :
  absolutePath (l1 ++ l2)%list = absolutePath l1 ++ absolutePath l2.
Proof.
  induction l1 as [|x l1 IH]; [reflexivity|].
  change ((x :: l1) ++ l2)%list with (x :: (l1 ++ l2))%list.
  rewrite !absolutePath_cons, IH.
  change (String slash (x ++ absolutePath l1) ++ absolutePath l2)
    with (String slash ((x ++ absolutePath l1) ++ absolutePath l2)).
  rewrite str_app_assoc. reflexivity.
Qed.

Lemma absolutePath_snoc segs b :
  absolutePath (segs ++ [b])%list = absolutePath segs ++ "/" ++ b.
Proof.
  rewrite absolutePath_app, absolutePath_cons. simpl absolutePath.
  rewrite str_app_nil_r. reflexivity.
Qed.

Lemma splitOn_absolute_tail x rest :
  hasChar slash x = false -> Forall plainSegment rest ->
  splitOn slash (x ++ absolutePath rest) = x :: rest.
Proof.
  intros Hx Hall. revert x Hx. induction Hall as [|y rest Hy _ IH]; intros x Hx.
  - simpl absolutePath. rewrite str_app_nil_r. apply splitOn_plain, Hx.
  - rewrite absolutePath_cons, (splitOn_segment x _ Hx), (IH y (proj1 Hy)). reflexivity.
Qed.

Lemma splitOn_absolute segs :
  Forall plainSegment segs -> segs <> [] ->
  splitOn slash (absolutePath segs) = "" :: segs.
Proof.
  intros Hall Hne. destruct Hall as [|x rest Hx Hall]; [congruence|].
  rewrite absolutePath_cons.
  change (splitOn slash (String slash (x ++ absolutePath rest)))
    with ("" :: splitOn slash (x ++ absolutePath rest)).
  rewrite (splitOn_absolute_tail x rest (proj1 Hx) Hall). reflexivity.
Qed.

Lemma normalizeString_plain allowAboveRoot res segs :
  Forall plainSegment segs ->
  normalizeString allowAboveRoot res segs = (rev res ++ segs)%list.
Proof.
  intros Hall. revert res. induction Hall as [|x rest Hx _ IH]; intros res.
  - simpl. rewrite app_nil_r. reflexivity.
  - destruct Hx as (_ & He & Hd & Hdd). simpl.
    rewrite decide_False by (intros [?|?]; congruence).
    rewrite decide_False by exact Hdd.
    rewrite IH. simpl. rewrite <- app_assoc. reflexivity.
Qed.

Lemma concat_absolute segs :
  segs <> [] -> String slash (String.concat "/" segs) = absolutePath segs.
Proof.
  induction segs as [|x rest IH]; [congruence|]. intros _.
  rewrite absolutePath_cons. destruct rest as [|y rest].
  - simpl. rewrite str_app_nil_r. reflexivity.
  - change (String.concat "/" (x :: y :: rest))
      with (x ++ String slash (String.concat "/" (y :: rest))).
    rewrite IH by discriminate. reflexivity.
Qed.

Lemma concat_nonempty segs :
  Forall plainSegment segs -> segs <> [] -> String.concat "/" segs <> "".
Proof.
  intros Hall Hne. destruct Hall as [|x rest Hx _]; [congruence|].
  destruct Hx as (_ & He & _). destruct x as [|c x]; [congruence|].
  destruct rest; simpl; discriminate.
Qed.

Lemma endsWith_hasChar c x : hasChar c x = false -> endsWith c x = false.
Proof.
  induction x as [|d x IH]; [reflexivity|]. simpl. intros H.
  apply orb_false_iff in H as [Hd Hx]. destruct x; [exact Hd|apply IH, Hx].
Qed.

Lemma endsWith_app c a b : b <> "" -> endsWith c (a ++ b) = endsWith c b.
Proof.
  intros Hb. induction a as [|d a IH]; [reflexivity|].
  change (String d a ++ b) with (String d (a ++ b)).
  destruct (a ++ b) as [|e r] eqn:Hab.
  - destruct a; [change (b = "") in Hab; congruence|discriminate Hab].
  - rewrite <- IH. reflexivity.
Qed.

Lemma endsWith_absolute segs :
  Forall plainSegment segs -> endsWith slash (absolutePath segs) = false.
Proof.
  induction 1 as [|x rest Hx Hall IH]; [reflexivity|].
  destruct Hx as (Hs & He & _). rewrite absolutePath_cons.
  change (String slash (x ++ absolutePath rest)) with ("/" ++ x ++ absolutePath rest).
  destruct rest as [|y rest].
  - simpl absolutePath. rewrite str_app_nil_r, endsWith_app by exact He.
    apply endsWith_hasChar, Hs.
  - rewrite <- str_app_assoc, endsWith_app by (rewrite absolutePath_cons; discriminate).
    exact IH.
Qed.

Lemma posix_normalize_absolute segs :
  Forall plainSegment segs -> segs <> [] ->
  posix_normalize (absolutePath segs) = absolutePath segs.
Proof.
  intros Hall Hne. unfold posix_normalize.
  assert (Hpre : String.prefix "/" (absolutePath segs) = true).
  { destruct segs as [|x rest]; [congruence|]. rewrite absolutePath_cons.
    destruct (x ++ absolutePath rest); reflexivity. }
  rewrite decide_False
    by (destruct segs; [congruence|rewrite absolutePath_cons; discriminate]).
  rewrite Hpre, (endsWith_absolute segs Hall), (splitOn_absolute segs Hall Hne).
  cbv zeta. change (negb true) with false.
  change (normalizeString false [] ("" :: segs)) with (normalizeString false [] segs).
  rewrite (normalizeString_plain false [] segs Hall). simpl rev. simpl app.
  rewrite decide_False by (apply concat_nonempty; assumption).
  apply concat_absolute, Hne.
Qed.

(** On a normalised directory and a plain segment [path.join] is
    concatenation with a separator. *)
Lemma posix_join_exact d b :
  normalDir d -> plainSegment b -> posix_join d b = path_join d b.
Proof.
  intros (segs & Hne & Hall & ->) Hb. unfold posix_join, path_join.
  rewrite decide_False
    by (destruct segs; [congruence|rewrite absolutePath_cons; discriminate]).
  rewrite decide_False by (apply Hb).
  rewrite <- absolutePath_snoc. apply posix_normalize_absolute.
  - apply Forall_app. split; [exact Hall|]. constructor; [exact Hb|constructor].
  - destruct segs; discriminate.
Qed.

Lemma normalDir_join d b : normalDir d -> plainSegment b -> normalDir (path_join d b).
Proof.
  intros (segs & Hne & Hall & ->) Hb. exists (segs ++ [b])%list.
  split; [destruct segs; discriminate|]. split.
  - apply Forall_app. split; [exact Hall|]. constructor; [exact Hb|constructor].
  - unfold path_join. rewrite absolutePath_snoc. reflexivity.
Qed.

Lemma plainSegment_hls A : hasChar slash A = false -> plainSegment ("hls_" ++ A).
Proof. intros HA. repeat split; [exact HA|discriminate..]. Qed.

Lemma getHlsDir_exact A s :
  normalDir (tmpdir s) -> hasChar slash A = false ->
  posix_join (tmpdir s) ("hls_" ++ A) = getHlsDir A s /\ normalDir (getHlsDir A s).
Proof.
  intros Hd HA. split.
  - apply posix_join_exact; [exact Hd|apply plainSegment_hls, HA].
  - apply normalDir_join; [exact Hd|apply plainSegment_hls, HA].
Qed.

Lemma getHlsDir_inj A B s : getHlsDir A s = getHlsDir B s -> A = B.
Proof.
  unfold getHlsDir, path_join. intros H.
  apply str_app_inv_head in H. apply (str_app_inv_head "/hls_") in H. exact H.
Qed.

Lemma startHlsObj_fs k url t :
  fs (st (startHlsObj k url t)) = fs (startHls k url (st t)).
Proof.
  rewrite startHlsObj_eq, startHls_fs.
  destruct (stopHlsObj_frame k t) as (Hfs & _).
  assert (Hw : forall e t', fs (st (writeSlot k e t')) = fs (st t')).
  { intros e t'. unfold writeSlot. destruct (decide (k = "__proto__")); reflexivity. }
  rewrite Hw. unfold spawned. cbn [st]. unfold spawn, log. cbn [fs set_children set_console].
  unfold clearDir, existsSync, mkdirSync.
  destruct (bool_decide (is_Some (fs (st t) !! getHlsDir k (st t)))) eqn:Hb.
  - rewrite Hfs. destruct (fs (st t) !! getHlsDir k (st t)); simpl; rewrite ?Hfs; reflexivity.
  - simpl. rewrite !lookup_insert_eq. simpl. rewrite Hfs. reflexivity.
Qed.

Lemma startHlsObj_spawns k url t :
  children (st (startHlsObj k url t)) !! length (children (st t))
  = Some (newChild k (ffmpegArgs (getHlsDir k (st t)) url)).
Proof.
  rewrite startHlsObj_children.
  rewrite lookup_app_r by (rewrite stopHlsObj_length; lia).
  rewrite stopHlsObj_length, Nat.sub_diag. reflexivity.
Qed.

Lemma startHlsObj_tmpdir k url t : tmpdir (st (startHlsObj k url t)) = tmpdir (st t).
Proof.
  rewrite startHlsObj_eq. destruct (stopHlsObj_frame k t) as (_ & Htmp & _).
  unfold writeSlot, spawned.
  destruct (decide (k = "__proto__")); cbn [st onState]; unfold clearDir;
    destruct (existsSync _ _); cbn [fs mkdirSync set_fs];
    repeat match goal with |- context [match ?x with _ => _ end] => destruct x end;
    simpl; exact Htmp.
Qed.

(** X5. With the temporary directory a normalised absolute path and slot
    ids without ['/'], the staging directory that [getHlsDir] names is
    what [path.join] returns, two slot ids have two staging directories,
    and [startHls A] leaves the entries of the staging directory of every
    other slot [B] as they are. In the staging directory of [A] itself it
    only removes entries, and only regular files: every entry that is not
    a regular file is still there afterwards; a directory that was missing
    is there afterwards and empty. *)
Theorem startHls_spares_other_slots (t : Server) (A B url : string) :
  normalDir (tmpdir (st t)) ->
  hasChar slash A = false -> hasChar slash B = false -> A <> B ->
  posix_join (tmpdir (st t)) ("hls_" ++ A) = getHlsDir A (st t)
  /\ posix_join (tmpdir (st t)) ("hls_" ++ B) = getHlsDir B (st t)
  /\ getHlsDir A (st t) <> getHlsDir B (st t)
  /\ fs (st (startHlsObj A url t)) !! getHlsDir B (st t) = fs (st t) !! getHlsDir B (st t)
  /\ (forall m, fs (st t) !! getHlsDir A (st t) = Some m ->
       exists m', fs (st (startHlsObj A url t)) !! getHlsDir A (st t) = Some m'
                  /\ m' ⊆ m
                  /\ forall f k, m !! f = Some k -> k <> RegularFile -> m' !! f = Some k)
  /\ (fs (st t) !! getHlsDir A (st t) = None ->
      fs (st (startHlsObj A url t)) !! getHlsDir A (st t) = Some ∅).
Proof.
  intros Hd HA HB Hne.
  assert (Hdirs : getHlsDir A (st t) <> getHlsDir B (st t)).
  { intros H. apply Hne, (getHlsDir_inj A B (st t) H). }
  destruct (startHls_fs_cases (st t) A url) as (Hother & Hown & Hnew).
  rewrite startHlsObj_fs.
  split; [apply getHlsDir_exact; assumption|].
  split; [apply getHlsDir_exact; assumption|].
  split; [exact Hdirs|].
  split; [apply Hother; congruence|].
  split; [exact Hown|exact Hnew].
Qed.

Lemma startHls_spares_other_slots_witness :
  fs (st (startHlsObj "0" "rtsp://cam/a"
            (startHlsObj "1" "rtsp://cam/b" (bootObj staleState))))
    !! getHlsDir "1" (st (startHlsObj "1" "rtsp://cam/b" (bootObj staleState)))
  = fs (st (startHlsObj "1" "rtsp://cam/b" (bootObj staleState)))
      !! getHlsDir "1" (st (startHlsObj "1" "rtsp://cam/b" (bootObj staleState))).
Proof.
  refine (proj1 (proj2 (proj2 (proj2
            (startHls_spares_other_slots
               (startHlsObj "1" "rtsp://cam/b" (bootObj staleState))
               "0" "1" "rtsp://cam/a" _ eq_refl eq_refl _))))).
  - exists ["tmp"]. split; [discriminate|]. split; [|reflexivity].
    constructor; [|constructor]. repeat split; discriminate.
  - discriminate.
Defined.

(** X17. With the temporary directory a normalised absolute path, a slot
    id without ['/'] and a file name that is a plain segment (not empty,
    no ['/'], neither [.] nor [..]): when the pathname of a request is
    [/hls/<slot>/<file>], the route reads that slot and that file and
    looks for the file where [path.join] of the slot's staging directory
    and the file name points; for [index.m3u8] that is the manifest path
    which [startHls] of that slot gives to ffmpeg as its last argument. *)
Theorem hls_route_serves_manifest (t : Server) (A f url : string) :
  normalDir (tmpdir (st t)) -> hasChar slash A = false -> plainSegment f ->
  hlsParts ("/hls/" ++ A ++ "/" ++ f) = Some (A, Some f)
  /\ hlsFilepath ("/hls/" ++ A ++ "/" ++ f) (st (startHlsObj A url t))
     = Some (posix_join (posix_join (tmpdir (st t)) ("hls_" ++ A)) f)
  /\ (f = "index.m3u8" ->
      (children (st (startHlsObj A url t)) !! length (children (st t))) ≫=
        (fun c => last (child_args c))
      = hlsFilepath ("/hls/" ++ A ++ "/" ++ f) (st (startHlsObj A url t))).
Proof.
  intros Hd HA Hf.
  assert (Hparts : hlsParts ("/hls/" ++ A ++ "/" ++ f) = Some (A, Some f)).
  { assert (Hpre : String.prefix "/hls/" ("/hls/" ++ A ++ "/" ++ f) = true)
      by (destruct A; reflexivity).
    assert (Hsplit : splitOn slash ("/hls/" ++ A ++ "/" ++ f) = [""; "hls"; A; f]).
    { change ("/hls/" ++ A ++ "/" ++ f)
        with ("" ++ String slash ("hls" ++ String slash (A ++ String slash f))).
      rewrite (splitOn_segment "" _ eq_refl), (splitOn_segment "hls" _ eq_refl).
      rewrite (splitOn_segment A f HA), (splitOn_plain f (proj1 Hf)). reflexivity. }
    unfold hlsParts. rewrite Hpre, Hsplit. reflexivity. }
  destruct (getHlsDir_exact A (st t) Hd HA) as [Hdir Hnorm].
  assert (Hpath : hlsFilepath ("/hls/" ++ A ++ "/" ++ f) (st (startHlsObj A url t))
                  = Some (path_join (getHlsDir A (st t)) f)).
  { unfold hlsFilepath. rewrite Hparts. unfold getHlsDir.
    rewrite startHlsObj_tmpdir. reflexivity. }
  split; [exact Hparts|]. split.
  - rewrite Hpath, Hdir, (posix_join_exact _ f Hnorm Hf). reflexivity.
  - intros ->. rewrite Hpath, startHlsObj_spawns. reflexivity.
Qed.

Lemma hls_route_serves_manifest_witness :
  hlsParts ("/hls/" ++ "0" ++ "/" ++ "seg003.ts") = Some ("0", Some "seg003.ts").
Proof.
  refine (proj1 (hls_route_serves_manifest
                   (bootObj (boot exampleConfig "/tmp" None 1000))
                   "0" "seg003.ts" "rtsp://cam/live" _ eq_refl _)).
  - exists ["tmp"]. split; [discriminate|]. split; [|reflexivity].
    constructor; [|constructor]. repeat split; discriminate.
  - repeat split; discriminate.
Defined.

(** ** One live child per slot, on the object *)

Lemma protoInv_stop k t : protoInv t -> protoInv (stopHlsObj k t).
Proof.
  intros Hinv p c Hc Hk Hx Hs. rewrite stopHlsObj_prototype.
  rewrite stopHlsObj_children in Hc.
  destruct (readSlot k t) as [|e|b]; try (apply (Hinv p c); assumption).
  destruct (decide (p = process e)) as [->|Hne].
  - apply lookup_alter_same in Hc as (c0 & _ & ->). discriminate Hk.
  - rewrite list_lookup_alter_ne in Hc by congruence. apply (Hinv p c); assumption.
Qed.

Lemma protoInv_start k url t : protoInv t -> protoInv (startHlsObj k url t).
Proof.
  intros Hinv p c Hc Hk Hx Hs. rewrite startHlsObj_prototype.
  rewrite startHlsObj_children in Hc.
  apply lookup_app_Some in Hc as [Hc|[Hlen Hc]].
  - destruct (decide (k = "__proto__")) as [->|Hne].
    + exfalso. rewrite stopHlsObj_children, readSlot_proto in Hc.
      destruct (prototype t) as [e|] eqn:Hp.
      * destruct (decide (p = process e)) as [->|Hne].
        { apply lookup_alter_same in Hc as (c0 & _ & ->). discriminate Hk. }
        rewrite list_lookup_alter_ne in Hc by congruence.
        destruct (Hinv p c Hc Hk Hx Hs) as (e0 & He0 & Hp0). congruence.
      * destruct (Hinv p c Hc Hk Hx Hs) as (e0 & He0 & _). congruence.
    + rewrite <- (stopHlsObj_prototype k t).
      apply (protoInv_stop k t Hinv p c); assumption.
  - rewrite stopHlsObj_length in Hlen, Hc.
    destruct (p - length (children (st t)))%nat as [|n] eqn:Hn; simpl in Hc;
      [|discriminate Hc].
    inversion Hc; subst c. simpl in Hs. rewrite decide_True by exact Hs.
    eexists. split; [reflexivity|]. cbn [process newEntry]. lia.
Qed.

Lemma protoInv_exit p code t : protoInv t -> protoInv (childExitObj p code t).
Proof.
  intros Hinv q c Hc Hk Hx Hs. rewrite childExitObj_prototype.
  rewrite childExitObj_children in Hc.
  destruct (decide (q = p)) as [->|Hne].
  - apply lookup_alter_same in Hc as (c0 & _ & ->). discriminate Hx.
  - rewrite list_lookup_alter_ne in Hc by congruence. apply (Hinv q c); assumption.
Qed.

Lemma protoInv_stopAll keys t : protoInv t -> protoInv (stopAllHlsObj keys t).
Proof.
  unfold stopAllHlsObj. revert t. induction keys as [|k keys IH]; intros t Hinv; simpl;
    [exact Hinv|].
  apply IH, protoInv_stop, Hinv.
Qed.

Lemma protoInv_step t t' : stepObj t t' -> protoInv t -> protoInv t'.
Proof.
  intros Hstep Hinv. destruct Hstep as [k u t|k t|keys t _|p c code t Hc Hx|t s' Hh Hc].
  - apply protoInv_start, Hinv.
  - apply protoInv_stop, Hinv.
  - apply protoInv_stopAll, Hinv.
  - apply protoInv_exit, Hinv.
  - intros p c Hpc. cbn [st prototype] in *. rewrite Hc in Hpc. apply (Hinv p c Hpc).
Qed.

Lemma protoInv_reachable t : reachableObj t -> protoInv t.
Proof.
  intros (s0 & Hh & Hc & Hsteps).
  assert (H0 : protoInv (bootObj s0)).
  { intros p c Hp. cbn [st bootObj] in Hp. rewrite Hc in Hp. discriminate. }
  clear Hh Hc. remember (bootObj s0) as t0. clear Heqt0.
  induction Hsteps as [t|t t' t'' Hst _ IH]; [exact H0|].
  apply IH, (protoInv_step t t' Hst H0).
Qed.

Lemma readSlot_started k url t :
  readSlot k (startHlsObj k url t) = Entry (newEntry k url t).
Proof.
  destruct (decide (k = "__proto__")) as [->|Hk].
  - rewrite readSlot_proto, startHlsObj_prototype. reflexivity.
  - apply readSlot_own; [exact Hk|].
    rewrite startHlsObj_own, decide_False by exact Hk. apply lookup_insert_eq.
Qed.

Lemma startHlsObj_length k url t :
  length (children (st (startHlsObj k url t))) = S (length (children (st t))).
Proof.
  rewrite startHlsObj_children, length_app, stopHlsObj_length. simpl. lia.
Qed.

(** X22. On the object, for every slot id, ["__proto__"] and the names
    inherited from [Object.prototype] included: in every state the server
    can reach a slot id has at most one live child; and [startHls A url1]
    followed by [startHls A url2] leaves the table giving for [A] the
    entry of the second child, which runs on [url2] and is the live child
    of [A], while the first child has been sent the signal. *)
Theorem one_live_child_per_slot_on_object (t : Server) :
  reachableObj t ->
  (forall A p q, liveFor (st t) A p -> liveFor (st t) A q -> p = q)
  /\ forall A url1 url2,
       let p1 := length (children (st t)) in
       let t2 := startHlsObj A url2 (startHlsObj A url1 t) in
       (exists e, readSlot A t2 = Entry e /\ process e = S p1 /\ slot_rtspUrl e = url2)
       /\ children (st t2) !! S p1
          = Some (newChild A (ffmpegArgs (getHlsDir A (st t)) url2))
       /\ (forall q, liveFor (st t2) A q -> q = S p1)
       /\ children (st t2) !! p1
          = Some (markKilled (newChild A (ffmpegArgs (getHlsDir A (st t)) url1))).
Proof.
  intros Hreach.
  assert (Hone : forall t', reachableObj t' ->
            forall A p q, liveFor (st t') A p -> liveFor (st t') A q -> p = q).
  { intros t' Hr A p q (c & Hc & Hs & Hk & Hx) (c' & Hc' & Hs' & Hk' & Hx').
    destruct (decide (A = "__proto__")) as [HA|HA].
    - destruct (protoInv_reachable t' Hr p c Hc Hk Hx) as (e & He & Hp); [congruence|].
      destruct (protoInv_reachable t' Hr q c' Hc' Hk' Hx') as (e' & He' & Hq); [congruence|].
      congruence.
    - destruct (inv_live t' (objInv_reachable t' Hr) p c Hc Hk Hx) as (e & He & Hp);
        [congruence|].
      destruct (inv_live t' (objInv_reachable t' Hr) q c' Hc' Hk' Hx') as (e' & He' & Hq);
        [congruence|].
      rewrite Hs in He. rewrite Hs' in He'. congruence. }
  split; [apply Hone, Hreach|].
  intros A url1 url2 p1 t2.
  set (t1 := startHlsObj A url1 t) in *.
  assert (Hlen1 : length (children (st t1)) = S p1) by apply startHlsObj_length.
  assert (Hdir : getHlsDir A (st t1) = getHlsDir A (st t)).
  { unfold getHlsDir, t1. rewrite startHlsObj_tmpdir. reflexivity. }
  assert (Hnew : children (st t2) !! S p1
                 = Some (newChild A (ffmpegArgs (getHlsDir A (st t)) url2))).
  { unfold t2. rewrite <- Hlen1, <- Hdir. apply startHlsObj_spawns. }
  assert (Hreach2 : reachableObj t2).
  { eapply reachableObj_step; [|apply stepObj_start].
    eapply reachableObj_step; [exact Hreach|apply stepObj_start]. }
  split; [|split; [exact Hnew|split]].
  - exists (newEntry A url2 t1). split; [apply readSlot_started|].
    split; [exact Hlen1|reflexivity].
  - intros q Hq. apply (Hone t2 Hreach2 A q (S p1) Hq).
    eexists. split; [exact Hnew|]. repeat split.
  - unfold t2. rewrite startHlsObj_children.
    rewrite lookup_app_l by (rewrite stopHlsObj_length, Hlen1; lia).
    rewrite stopHlsObj_children. unfold t1 at 1. rewrite readSlot_started.
    cbn [process newEntry]. rewrite list_lookup_alter_eq.
    unfold t1, p1. rewrite startHlsObj_spawns. reflexivity.
Qed.

Lemma one_live_child_per_slot_on_object_witness :
  children (st (startHlsObj "__proto__" "rtsp://cam/b"
                  (startHlsObj "__proto__" "rtsp://cam/a"
                     (bootObj (boot exampleConfig "/tmp" None 1000))))) !! 1%nat
  = Some (newChild "__proto__"
            (ffmpegArgs (getHlsDir "__proto__" (boot exampleConfig "/tmp" None 1000))
               "rtsp://cam/b")).
Proof.
  exact (proj1 (proj2 (proj2 (one_live_child_per_slot_on_object
                                (bootObj (boot exampleConfig "/tmp" None 1000))
                                (reachableObj_boot exampleConfig "/tmp" None 1000))
                         "__proto__" "rtsp://cam/a" "rtsp://cam/b"))).
Defined.

(** * Handlers that leave the relay alone *)

Lemma sameSlots_trans s0 s1 s2 : sameSlots s0 s1 -> sameSlots s1 s2 -> sameSlots s0 s2.
Proof. intros (H1 & H2 & H3) (H4 & H5 & H6). repeat split; congruence. Qed.

Lemma quiet_from {A} s0 s1 (x : Step A) : sameSlots s0 s1 -> quiet s1 x -> quiet s0 x.
Proof.
  intros Hs Hx. destruct Hx as [s1 s r H|s1 s req k H Hk].
  - constructor. exact (sameSlots_trans _ _ _ Hs H).
  - constructor; [exact (sameSlots_trans _ _ _ Hs H)|exact Hk].
Qed.

Lemma quiet_bindStep {A B} s0 (x : Step A) (f : A -> Async B) :
  quiet s0 x -> (forall a, Quiet (f a)) -> quiet s0 (bindStep x f).
Proof.
  intros Hx Hf. induction Hx as [s0 s r Hs|s0 s req k Hs _ IH]; simpl.
  - destruct r as [e|a]; [constructor; exact Hs|].
    apply (quiet_from s0 s); [exact Hs|apply Hf].
  - constructor; [exact Hs|exact IH].
Qed.

Lemma quiet_catchStep {A} s0 (x : Step A) (h : Error -> Async A) :
  quiet s0 x -> (forall e, Quiet (h e)) -> quiet s0 (catchStep x h).
Proof.
  intros Hx Hh. induction Hx as [s0 s r Hs|s0 s req k Hs _ IH]; simpl.
  - destruct r as [e|a]; [|constructor; exact Hs].
    apply (quiet_from s0 s); [exact Hs|apply Hh].
  - constructor; [exact Hs|exact IH].
Qed.

Lemma Quiet_bind {A B} (m : Async A) (f : A -> Async B) :
  Quiet m -> (forall a, Quiet (f a)) -> Quiet (bind m f).
Proof. intros Hm Hf s. apply quiet_bindStep; [apply Hm|exact Hf]. Qed.

Lemma Quiet_tryCatch {A} (m : Async A) (h : Error -> Async A) :
  Quiet m -> (forall e, Quiet (h e)) -> Quiet (tryCatch m h).
Proof. intros Hm Hh s. apply quiet_catchStep; [apply Hm|exact Hh]. Qed.

Lemma Quiet_ret {A} (a : A) : Quiet (ret a).
Proof. intros s. constructor. apply sameSlots_refl. Qed.

Lemma Quiet_throw {A} (e : Error) : Quiet (@throw A e).
Proof. intros s. constructor. apply sameSlots_refl. Qed.

Lemma Quiet_gets {A} (f : State -> A) : Quiet (gets f).
Proof. intros s. constructor. apply sameSlots_refl. Qed.

Lemma Quiet_httpsRequest req : Quiet (httpsRequest req).
Proof.
  intros s. constructor; [repeat split|].
  intros [res|] s'; constructor; apply sameSlots_refl.
Qed.

Lemma Quiet_setTokens (f : State -> option Tokens) :
  Quiet (modify (fun s => set_tokens (f s) s)).
Proof. intros s. constructor. repeat split. Qed.

Create HintDb quiet.
#[local] Hint Resolve Quiet_ret Quiet_throw Quiet_gets Quiet_httpsRequest : quiet.

(** Peels one [let*] off the goal and solves the head with the hints. *)
Ltac quiet_bind := apply Quiet_bind; [auto with quiet|].

Lemma Quiet_refreshAccessToken : Quiet refreshAccessToken.
Proof.
  unfold refreshAccessToken. quiet_bind.
  intros [t|]; [|auto with quiet].
  quiet_bind. intros c. quiet_bind. intros res.
  destruct (truthy (body_access_token (body res))); [|auto with quiet].
  apply (Quiet_setTokens (fun s => Some _)).
Qed.

#[local] Hint Resolve Quiet_refreshAccessToken : quiet.

Lemma Quiet_getValidToken : Quiet getValidToken.
Proof.
  unfold getValidToken. quiet_bind.
  intros [t|]; [|auto with quiet].
  quiet_bind. intros now.
  apply Quiet_bind; [destruct (needsRefresh t now); auto with quiet|].
  intros _. quiet_bind.
  intros [t'|]; auto with quiet.
Qed.

#[local] Hint Resolve Quiet_getValidToken : quiet.

Lemma Quiet_extendStream deviceId ext : Quiet (extendStream deviceId ext).
Proof.
  unfold extendStream. quiet_bind. intros token.
  quiet_bind. intros res. auto with quiet.
Qed.

Lemma Quiet_apiExtend parsed : Quiet (apiExtend parsed).
Proof.
  unfold apiExtend. apply Quiet_tryCatch; [|auto with quiet].
  destruct parsed as [[deviceId ext]|]; [|auto with quiet].
  apply Quiet_bind; [apply Quiet_extendStream|]. auto with quiet.
Qed.

Lemma quiet_stateOf {A} s0 (x : Step A) : quiet s0 x -> sameSlots s0 (stateOf x).
Proof. intros [? s r Hs|? s req k Hs _]; exact Hs. Qed.

Lemma quiet_resumeOn {A} s0 (x : Step A) s' o :
  quiet s0 x -> waiting x = true -> quiet s' (resumeOn x s' o).
Proof. intros [? s r Hs|? s req k Hs Hk] Hw; [discriminate|apply Hk]. Qed.

Lemma quiet_resumeAll {A} s0 (x : Step A) l :
  quiet s0 x -> exists s1, quiet s1 (resumeAll x l).
Proof.
  revert s0 x. induction l as [|[s' o] l IH]; intros s0 x Hx; simpl; [eauto|].
  destruct Hx as [s0 s r Hs|s0 s req k Hs Hk]; simpl.
  - apply (IH s0). constructor. exact Hs.
  - apply (IH s'), Hk.
Qed.

(** X15. [POST /api/extend] never touches the relay, whatever the body of
    the request and however its HTTPS requests are answered. Each stretch
    of the handler between two waits leaves the slot table, the children
    and the staging directories as it found them: from the start to the
    first wait, and from every resumption, on whatever state the rest of
    the server has left in the meantime, to the next wait or the end. Run
    alone it therefore ends on the slots it started with. With a valid
    cached token it answers 200 with the [results] of the device response
    as they come, also when there are none. *)
Theorem apiExtend_leaves_slots
    (parsed : option (string * option string)) (s : State) :
  quiet s (apiExtend parsed s)
  /\ sameSlots s (stateOf (apiExtend parsed s))
  /\ (forall l s' o,
        waiting (resumeAll (apiExtend parsed s) l) = true ->
        sameSlots s' (stateOf (resumeOn (resumeAll (apiExtend parsed s) l) s' o)))
  /\ (forall ds, sameSlots s (stateOf (feed (apiExtend parsed s) ds)))
  /\ (forall deviceId ext t now res,
        parsed = Some (deviceId, ext) ->
        tokens s = Some t -> needsRefresh t (clock s) = false ->
        feed (apiExtend parsed s) [(now, Resolved res)]
        = Done (set_clock now
                  (issue (executeCommand deviceId (access_token t) (ExtendRtspStream ext)) s))
            (inr (Reply200Extend (body_results (body res))))).
Proof.
  pose proof (Quiet_apiExtend parsed s) as Hq.
  split; [exact Hq|]. split; [apply quiet_stateOf, Hq|]. split; [|split].
  - intros l s' o Hw. destruct (quiet_resumeAll s _ l Hq) as [s1 H1].
    apply quiet_stateOf, (quiet_resumeOn s1); assumption.
  - intros ds. apply keeps_stateOf, keeps_feed, Keeps_apiExtend, sameSlots_refl.
  - intros deviceId ext t now res -> Ht Hn.
    unfold apiExtend, tryCatch, extendStream, bind.
    rewrite (getValidToken_cached s t Ht Hn). reflexivity.
Qed.
